(** * i2s: WAV streaming to an I2S slave transmitter

    Shallow embedding of [micro.py] (device side, MicroPython on the RP2040)
    and of [ps.py] (host side, CPython), and the properties of the
    specification checked against them.

    Bytes are [Byte.byte]; a [bytes] object is a [list byte]; Python
    integers are [Z]; little-endian packing is coqutil's [le_combine] and
    [le_split]. Exceptions are explicit: a call returns [Ok v] or
    [Raise e]. *)

From Stdlib Require Import String.
From Stdlib Require Import ZArith List Lia Bool.
From coqutil Require Import Byte Word.LittleEndianList.
Import ListNotations.
Local Open Scope Z_scope.

(* ===================================================================== *)
(** * Python primitives used by both files *)
(* ===================================================================== *)

Module Py.

(** The exceptions the two files can raise. [StructError] is the failure
    of the [struct] module: [struct.error] on CPython; MicroPython's
    [struct] raises [ValueError('buffer too small')] when it is handed
    fewer bytes than the format needs. *)
Inductive exn : Type :=
| ValueError (msg : string)
| StructError.

Inductive result (A : Type) : Type :=
| Ok (a : A)
| Raise (e : exn).
Arguments Ok {A} a.
Arguments Raise {A} e.

Definition bind {A B : Type} (m : result A) (k : A -> result B) : result B :=
  match m with
  | Ok a => k a
  | Raise e => Raise e
  end.

Definition bytes : Type := list byte.

(** [len(b)] *)
Definition len {A : Type} (buf : list A) : Z := Z.of_nat (length buf).

(** [buf[lo:hi]] for [0 <= lo]: the slice is clipped to the object, and is
    empty when [hi <= lo]. (Negative indices, which Python counts from
    the end, do not occur in the two files.) *)
Definition slice {A : Type} (buf : list A) (lo hi : Z) : list A :=
  firstn (Z.to_nat (hi - lo)) (skipn (Z.to_nat lo) buf).

(** [range(start, stop, step)] for a positive [step]. *)
Definition range (start stop step : Z) : list Z :=
  map (fun k => start + step * Z.of_nat k)
      (seq 0 (Z.to_nat ((stop - start + step - 1) / step))).

(** A byte-string literal. *)
Definition b (s : string) : bytes := list_byte_of_string s.

Fixpoint bytes_eqb (x y : bytes) : bool :=
  match x, y with
  | [], [] => true
  | c :: x', d :: y' => Byte.eqb c d && bytes_eqb x' y'
  | _, _ => false
  end.

(** Two's-complement reading of an unsigned [bits]-bit value. *)
Definition to_signed (bits : Z) (u : Z) : Z :=
  if u <? 2 ^ (bits - 1) then u else u - 2 ^ bits.

(** [struct.unpack('<X', buf)[0]] for a single field of [n] bytes: the
    buffer must have exactly the size of the format. *)
Definition unpack (n : nat) (signed : bool) (buf : bytes) : result Z :=
  if Nat.eqb (length buf) n
  then Ok (if signed then to_signed (8 * Z.of_nat n) (le_combine buf)
           else le_combine buf)
  else Raise StructError.

Definition unpack_h := unpack 2 true.    (* '<h' *)
Definition unpack_H := unpack 2 false.   (* '<H' *)
Definition unpack_I := unpack 4 false.   (* '<I' *)
Definition unpack_i := unpack 4 true.    (* '<i' *)

(** [struct.pack('<X', v)] for a single field of [n] bytes: a value
    outside the range of the format is refused. *)
Definition pack (n : nat) (signed : bool) (v : Z) : result bytes :=
  let w := 8 * Z.of_nat n in
  if (if signed then (- 2 ^ (w - 1) <=? v) && (v <? 2 ^ (w - 1))
      else (0 <=? v) && (v <? 2 ^ w))
  then Ok (le_split n v)
  else Raise StructError.

Definition pack_h := pack 2 true.
Definition pack_H := pack 2 false.
Definition pack_I := pack 4 false.

(** [struct.pack(f'<{len(vs)}h', *vs)] *)
Fixpoint pack_list (n : nat) (signed : bool) (vs : list Z) : result bytes :=
  match vs with
  | [] => Ok []
  | v :: vs' =>
      bind (pack n signed v) (fun x =>
      bind (pack_list n signed vs') (fun xs => Ok (x ++ xs)))
  end.

(** The fields of [struct.unpack(f'<{count}X', buf)] once the size of the
    buffer has been checked. *)
Fixpoint unpack_fields (n : nat) (signed : bool) (count : nat) (buf : bytes)
  : list Z :=
  match count with
  | O => []
  | S count' =>
      (let u := le_combine (firstn n buf) in
       if signed then to_signed (8 * Z.of_nat n) u else u)
      :: unpack_fields n signed count' (skipn n buf)
  end.

(** [struct.unpack(f'<{count}X', buf)]: the buffer must have exactly
    [count * n] bytes. *)
Definition unpack_list (n : nat) (signed : bool) (count : Z) (buf : bytes)
  : result (list Z) :=
  if len buf =? count * Z.of_nat n
  then Ok (unpack_fields n signed (Z.to_nat count) buf)
  else Raise StructError.

(** [int.from_bytes(buf, 'little', signed=True)] *)
Definition int_from_bytes_signed (buf : bytes) : Z :=
  let u := le_combine buf in
  if (0 <? len buf) && (2 ^ (8 * len buf - 1) <=? u)
  then u - 2 ^ (8 * len buf) else u.

(** [needle in hay] for two strings: [needle] occurs in [hay]. *)
Fixpoint str_in (needle hay : string) : bool :=
  String.prefix needle hay
  || match hay with
     | EmptyString => false
     | String _ hay' => str_in needle hay'
     end.

End Py.

Import Py.

Notation "x <- m ;; k" := (bind m (fun x => k))
  (at level 61, m at next level, right associativity).

(* ===================================================================== *)
(** * micro.py *)
(* ===================================================================== *)

(** ** The PIO program and the state machine that runs it *)

Module PIO.

Inductive shiftdir : Type := SHIFT_LEFT | SHIFT_RIGHT.

(** The instructions [i2s_slave_tx] is assembled from, and [pull]. The
    source of every [wait] is [pin]: the index is relative to the state
    machine's [in_base]. [asm_pio] is called without [autopull], so a
    [pull] is the only way a word of the TX fifo reaches the output shift
    register. *)
Inductive instr : Type :=
| wait (polarity : bool) (index : Z)   (* wait(polarity, pin, index) *)
| set_x (value : Z)                    (* set(x, value) *)
| out_pins (count : nat)               (* out(pins, count) *)
| jmp_x_dec (target : nat)             (* jmp(x_dec, label) *)
| pull.                                (* pull() *)

(** The keyword arguments of [StateMachine(...)] that the program
    depends on. *)
Record config : Type := {
  in_base : Z;
  out_base : Z;
  jmp_pin : Z;
  out_shiftdir : shiftdir
}.

(** Program counter, scratch register X, output shift register, the
    words waiting in the TX fifo, and the bits driven on the pin at
    [out_base] so far, oldest first. *)
Record state : Type := {
  pc : nat;
  x : Z;
  osr : Z;
  tx_fifo : list Z;
  driven : list bool
}.

Definition reset (osr0 : Z) (fifo : list Z) : state :=
  {| pc := 0; x := 0; osr := osr0; tx_fifo := fifo; driven := [] |}.

(** One bit leaves the 32-bit output shift register; zeroes come in. *)
Definition shift_out (dir : shiftdir) (w : Z) : bool * Z :=
  match dir with
  | SHIFT_LEFT => (Z.testbit w 31, Z.land (Z.shiftl w 1) 0xFFFFFFFF)
  | SHIFT_RIGHT => (Z.testbit w 0, Z.shiftr w 1)
  end.

Fixpoint shift_out_n (dir : shiftdir) (count : nat) (w : Z) : list bool * Z :=
  match count with
  | O => ([], w)
  | S count' =>
      let '(bit, w') := shift_out dir w in
      let '(bits, w'') := shift_out_n dir count' w' in
      (bit :: bits, w'')
  end.

(** One clock cycle of the state machine; [gpio p] is the level of GPIO
    [p] during the cycle. The program wraps from its last instruction to
    its first. *)
Definition step (cfg : config) (prog : list instr) (gpio : Z -> bool)
           (s : state) : state :=
  let next := if Nat.eqb (S (pc s)) (length prog) then O else S (pc s) in
  match nth_error prog (pc s) with
  | None => s
  | Some (wait polarity index) =>
      if Bool.eqb (gpio ((in_base cfg + index) mod 32)) polarity
      then {| pc := next; x := x s; osr := osr s; tx_fifo := tx_fifo s;
              driven := driven s |}
      else s
  | Some (set_x value) =>
      {| pc := next; x := value; osr := osr s; tx_fifo := tx_fifo s;
         driven := driven s |}
  | Some (out_pins count) =>
      let '(bits, w) := shift_out_n (out_shiftdir cfg) count (osr s) in
      {| pc := next; x := x s; osr := w; tx_fifo := tx_fifo s;
         driven := driven s ++ bits |}
  | Some (jmp_x_dec target) =>
      {| pc := if x s =? 0 then next else target;
         x := (x s - 1) mod 2 ^ 32; osr := osr s; tx_fifo := tx_fifo s;
         driven := driven s |}
  | Some pull =>
      match tx_fifo s with
      | [] => s
      | word :: rest =>
          {| pc := next; x := x s; osr := word; tx_fifo := rest;
             driven := driven s |}
      end
  end.

Definition run (cfg : config) (prog : list instr) (trace : list (Z -> bool))
           (s : state) : state :=
  fold_left (fun s gpio => step cfg prog gpio s) trace s.

End PIO.

Module Micro.

Definition BCK_PIN : Z := 0.
Definition WS_PIN : Z := 1.
Definition SD_PIN : Z := 2.

(** [i2s_slave_tx], with the labels [left_loop] and [right_loop] resolved
    to the addresses 2 and 8. *)
Definition i2s_slave_tx : list PIO.instr :=
  [ PIO.wait false 0        (* Wait for WS low *)
  ; PIO.set_x 15
  ; PIO.wait true 1         (* left_loop: Wait for BCK rising edge *)
  ; PIO.out_pins 1
  ; PIO.wait false 1        (* Wait for BCK falling edge *)
  ; PIO.jmp_x_dec 2
  ; PIO.wait true 0         (* Wait for WS high *)
  ; PIO.set_x 15
  ; PIO.wait true 1         (* right_loop: Wait for BCK rising edge *)
  ; PIO.out_pins 1
  ; PIO.wait false 1        (* Wait for BCK falling edge *)
  ; PIO.jmp_x_dec 8 ].

(** The configuration [I2SSlaveTX.__init__] hands to [StateMachine]. *)
Definition sm_config (bck_pin ws_pin sd_pin : Z) : PIO.config :=
  {| PIO.in_base := bck_pin;
     PIO.out_base := sd_pin;
     PIO.jmp_pin := ws_pin;
     PIO.out_shiftdir := PIO.SHIFT_LEFT |}.

(** ** I2SSlaveTX

    Towards the Python side the state machine behind [self.sm] is the
    sequence of words handed to [sm.put], oldest first. *)
Record I2SSlaveTX : Type := { sm_put : list Z }.

Definition put (self : I2SSlaveTX) (word : Z) : I2SSlaveTX :=
  {| sm_put := sm_put self ++ [word] |}.

(** The word built by [send_sample]:
    [((left & 0xFFFF) << 16) | (right & 0xFFFF)] *)
Definition pack_sample (left right : Z) : Z :=
  Z.lor (Z.shiftl (Z.land left 0xFFFF) 16) (Z.land right 0xFFFF).

Definition send_sample (self : I2SSlaveTX) (left right : Z) : I2SSlaveTX :=
  let sample := pack_sample left right in
  put self sample.

(** The argument of [send_samples]: a bytes buffer, or a list of
    [(left, right)] tuples. *)
Inductive samples_arg : Type :=
| Buffer (buf : bytes)
| Tuples (l : list (Z * Z)).

(** The body of the [for i in range(0, len(samples), 4)] loop. *)
Definition send_samples_body (samples : bytes) (acc : result I2SSlaveTX)
           (i : Z) : result I2SSlaveTX :=
  self <- acc ;;
  if i + 3 <? len samples then
    left <- unpack_h (slice samples i (i + 2)) ;;
    right <- unpack_h (slice samples (i + 2) (i + 4)) ;;
    Ok (send_sample self left right)
  else Ok self.

Definition send_samples (self : I2SSlaveTX) (samples : samples_arg)
  : result I2SSlaveTX :=
  match samples with
  | Buffer samples =>
      fold_left (send_samples_body samples) (range 0 (len samples) 4) (Ok self)
  | Tuples l =>
      Ok (fold_left (fun self lr => send_sample self (fst lr) (snd lr)) l self)
  end.

(** The streaming loop of [stream_audio]; [reads] are the successive
    results of [sys.stdin.buffer.read(chunk_size)], and an empty one
    leaves the loop. *)
Fixpoint stream_loop (i2s : I2SSlaveTX) (reads : list bytes)
  : result I2SSlaveTX :=
  match reads with
  | [] => Ok i2s
  | data :: reads' =>
      if Nat.eqb (length data) 0 then Ok i2s
      else i2s' <- send_samples i2s (Buffer data) ;; stream_loop i2s' reads'
  end.

(** ** parse_wav_header *)

(** The dictionary [parse_wav_header] returns. *)
Record wav_info : Type := {
  format : Z;
  channels : Z;
  sample_rate : Z;
  bits : Z
}.

Definition Not_a_valid_WAV_file : exn := ValueError "Not a valid WAV file".
Definition No_fmt_chunk_found : exn := ValueError "No fmt chunk found".

(** What the body of the loop does once [chunk_id == b'fmt ']. *)
Definition decode_fmt (header : bytes) (pos chunk_size : Z) : result wav_info :=
  let fmt_data := slice header (pos + 8) (pos + 8 + chunk_size) in
  audio_format <- unpack_H (slice fmt_data 0 2) ;;
  channels <- unpack_H (slice fmt_data 2 4) ;;
  sample_rate <- unpack_I (slice fmt_data 4 8) ;;
  bits_per_sample <- unpack_H (slice fmt_data 14 16) ;;
  Ok {| format := audio_format; channels := channels;
        sample_rate := sample_rate; bits := bits_per_sample |}.

(** The [while pos < len(header) - 8] loop, with a bound on the number of
    iterations: [None] says the bound was reached before the loop was
    left. *)
Fixpoint find_fmt (fuel : nat) (header : bytes) (pos : Z)
  : option (result wav_info) :=
  match fuel with
  | O => None
  | S fuel' =>
      if pos <? len header - 8 then
        let chunk_id := slice header pos (pos + 4) in
        match unpack_I (slice header (pos + 4) (pos + 8)) with
        | Raise e => Some (Raise e)
        | Ok chunk_size =>
            if bytes_eqb chunk_id (b "fmt ")
            then Some (decode_fmt header pos chunk_size)
            else find_fmt fuel' header (pos + 8 + chunk_size)
        end
      else Some (Raise No_fmt_chunk_found)
  end.

Definition magic_ok (header : bytes) : bool :=
  bytes_eqb (slice header 0 4) (b "RIFF")
  && bytes_eqb (slice header 8 12) (b "WAVE").

Definition parse_wav_header_fuel (fuel : nat) (header : bytes)
  : option (result wav_info) :=
  if negb (magic_ok header)
  then Some (Raise Not_a_valid_WAV_file)
  else find_fmt fuel header 12.

(** One more iteration than the header has bytes is always enough (shown
    below). *)
Definition parse_wav_header (header : bytes) : option (result wav_info) :=
  parse_wav_header_fuel (S (length header)) header.

(** ** stream_audio *)

(** [sys.stdin.buffer.read(n)] on the bytes still to come: the next [n]
    bytes, fewer only where the stream ends and none once it has ended;
    the second component is what is left to read. *)
Definition read (stdin : bytes) (n : Z) : bytes * bytes :=
  (firstn (Z.to_nat n) stdin, skipn (Z.to_nat n) stdin).

(** The successive results of [sys.stdin.buffer.read(n)], up to the empty
    one that reports the end of the stream; [fuel] bounds their number. *)
Fixpoint reads (fuel : nat) (stdin : bytes) (n : Z) : list bytes :=
  match fuel with
  | O => []
  | S fuel' =>
      let data := fst (read stdin n) in
      if Nat.eqb (length data) 0 then [data]
      else data :: reads fuel' (snd (read stdin n)) n
  end.

(** The "Find data chunk" loop of [stream_audio], with a bound on the
    number of iterations as in [find_fmt]: the value of [data_start]
    when the loop is left. *)
Fixpoint find_data (fuel : nat) (header : bytes) (pos : Z)
  : option (result (option Z)) :=
  match fuel with
  | O => None
  | S fuel' =>
      if pos <? len header - 8 then
        let chunk_id := slice header pos (pos + 4) in
        match unpack_I (slice header (pos + 4) (pos + 8)) with
        | Raise e => Some (Raise e)
        | Ok chunk_size =>
            if bytes_eqb chunk_id (b "data")
            then Some (Ok (Some (pos + 8)))
            else find_data fuel' header (pos + 8 + chunk_size)
        end
      else Some (Ok None)
  end.

(** How [stream_audio] ends: "Error: Incomplete header", "Error: {e}" from
    the handler (on MicroPython the failure of [struct] is a [ValueError]
    as well and is caught with the others), or "Streaming complete" with
    the transmitter as it is then; [warning] says whether the "Only 16-bit
    stereo supported" warning was printed. *)
Inductive outcome : Type :=
| Incomplete_header
| Error (e : exn)
| Streaming_complete (warning : bool) (i2s : I2SSlaveTX).

(** [stream_audio] on the bytes that arrive on [sys.stdin.buffer]. The
    100 bytes read when no [data] chunk was found are appended to
    [header], which is not looked at again. *)
Definition stream_audio (stdin : bytes) : option outcome :=
  let i2s := {| sm_put := [] |} in
  let header := fst (read stdin 44) in
  let stdin := snd (read stdin 44) in
  if len header <? 44 then Some Incomplete_header
  else
    match parse_wav_header header with
    | None => None
    | Some (Raise e) => Some (Error e)
    | Some (Ok info) =>
        let warning := negb (bits info =? 16) || negb (channels info =? 2) in
        match find_data (S (length header)) header 12 with
        | None => None
        | Some (Raise e) => Some (Error e)
        | Some (Ok data_start) =>
            let stdin :=
              match data_start with
              | None => snd (read stdin 100)
              | Some _ => stdin
              end in
            let chunk_size := 512 in
            match stream_loop i2s (reads (S (length stdin)) stdin chunk_size) with
            | Raise e => Some (Error e)
            | Ok i2s => Some (Streaming_complete warning i2s)
            end
        end
    end.

End Micro.

(* ===================================================================== *)
(** * ps.py *)
(* ===================================================================== *)

Module Ps.

(** What [convert_to_stereo_16bit] reads from the [wave] reader:
    [getnchannels()], [getsampwidth()], [getframerate()],
    [getnframes()] and the bytes [readframes(getnframes())] returns. *)
Record Wave_read : Type := {
  getnchannels : Z;
  getsampwidth : Z;
  getframerate : Z;
  getnframes : Z;
  readframes : bytes
}.

(** The three per-sample conversions. Python's [//] rounds down, as
    [Z.div] does for a positive divisor. *)
Definition from_8bit (s : Z) : Z := (s - 128) * 256.
Definition from_24bit (s : Z) : Z := s / 256.
Definition from_32bit (s : Z) : Z := s / 65536.

(** "Convert to 16-bit if needed" *)
Definition to_16bit (sampwidth : Z) (frames : bytes) : result bytes :=
  if sampwidth =? 1 then
    let samples := map byte.unsigned frames in
    let samples_16 := map from_8bit samples in
    pack_list 2 true samples_16
  else if sampwidth =? 3 then
    let samples_24 :=
      map (fun i => int_from_bytes_signed (slice frames i (i + 3)))
          (range 0 (len frames) 3) in
    let samples_16 := map from_24bit samples_24 in
    pack_list 2 true samples_16
  else if sampwidth =? 4 then
    samples_32 <- unpack_list 4 true (len frames / 4) frames ;;
    let samples_16 := map from_32bit samples_32 in
    pack_list 2 true samples_16
  else Ok frames.

(** "Convert mono to stereo if needed": the new frames and the new
    channel count. *)
Definition to_stereo (channels : Z) (frames : bytes) : result (bytes * Z) :=
  if channels =? 1 then
    samples <- unpack_list 2 true (len frames / 2) frames ;;
    let stereo_samples := flat_map (fun s => [s; s]) samples in
    frames' <- pack_list 2 true stereo_samples ;;
    Ok (frames', 2)
  else Ok (frames, channels).

Definition convert_to_stereo_16bit (wf : Wave_read) : result bytes :=
  let channels := getnchannels wf in
  let sampwidth := getsampwidth wf in
  let framerate := getframerate wf in
  let frames := readframes wf in
  frames <- to_16bit sampwidth frames ;;
  fc <- to_stereo channels frames ;;
  let frames := fst fc in
  let channels := snd fc in
  riff_size <- pack_I (36 + len frames) ;;
  fmt_size <- pack_I 16 ;;
  audio_format <- pack_H 1 ;;
  nchannels <- pack_H channels ;;
  rate <- pack_I framerate ;;
  byte_rate <- pack_I (framerate * channels * 2) ;;
  block_align <- pack_H (channels * 2) ;;
  bits_per_sample <- pack_H 16 ;;
  data_size <- pack_I (len frames) ;;
  Ok (b "RIFF" ++ riff_size ++ b "WAVE"
      ++ b "fmt " ++ fmt_size ++ audio_format ++ nchannels ++ rate
      ++ byte_rate ++ block_align ++ bits_per_sample
      ++ b "data" ++ data_size ++ frames).

(** ** find_pico_port *)

(** What [find_pico_port] reads of an entry of [comports()]; [vid] is
    [None] for a port without USB vendor id. *)
Record ListPortInfo : Type := {
  device : string;
  description : string;
  vid : option Z
}.

Fixpoint find_pico_port (ports : list ListPortInfo) : option string :=
  match ports with
  | [] => None
  | port :: ports' =>
      if str_in "USB Serial" (description port) || str_in "Pico" (description port)
      then Some (device port)
      else if match vid port with
              | Some v => v =? 0x2E8A
              | None => false
              end
           then Some (device port)
           else find_pico_port ports'
  end.

(** ** send_wav_file: the "Send in chunks" loop *)

(** The chunks handed to [ser.write] so far, oldest first, and the
    counter [sent]. *)
Record sender : Type := { written : list bytes; sent : Z }.

Definition send_chunk (wav_data : bytes) (chunk_size : Z) (st : sender) (i : Z)
  : sender :=
  let chunk := slice wav_data i (i + chunk_size) in
  {| written := written st ++ [chunk]; sent := sent st + len chunk |}.

(** [for i in range(0, len(wav_data), chunk_size)], for a positive
    [chunk_size]. *)
Definition send_chunks (wav_data : bytes) (chunk_size : Z) : sender :=
  fold_left (send_chunk wav_data chunk_size)
            (range 0 (len wav_data) chunk_size)
            {| written := []; sent := 0 |}.

End Ps.

(* ===================================================================== *)
(** * The specification's side *)
(* ===================================================================== *)

Module Spec.

(** A stereo frame: [(left, right)], two signed 16-bit samples. *)
Definition StereoFrame : Type := (Z * Z)%type.

Definition int16 (v : Z) : Prop := - 2 ^ 15 <= v < 2 ^ 15.

(** The frames of a byte string, in the specification's words: split
    into consecutive 4-byte groups, two bytes little-endian signed left,
    then two bytes little-endian signed right; a final incomplete group
    is truncated. *)
Fixpoint frames_of (data : bytes) : list StereoFrame :=
  match data with
  | l0 :: l1 :: r0 :: r1 :: rest =>
      (to_signed 16 (le_combine [l0; l1]), to_signed 16 (le_combine [r0; r1]))
      :: frames_of rest
  | _ => []
  end.

(** The packed word of a frame: left in the high half, right in the low
    half. *)
Definition word_of (f : StereoFrame) : Z :=
  (fst f mod 2 ^ 16) * 2 ^ 16 + snd f mod 2 ^ 16.

(** The frame a packed word stands for. *)
Definition frame_of (w : Z) : StereoFrame :=
  (to_signed 16 (w / 2 ^ 16), to_signed 16 (w mod 2 ^ 16)).

(** ** The WAV container of section 6 *)

(** A chunk: [{4-byte id}{little-endian 32-bit length}{length bytes of
    payload}]. *)
Record chunk : Type := { chunk_id : bytes; payload : bytes }.

Definition encode_chunk (c : chunk) : bytes :=
  chunk_id c ++ le_split 4 (len (payload c)) ++ payload c.

Definition well_formed (c : chunk) : Prop :=
  length (chunk_id c) = 4%nat /\ len (payload c) < 2 ^ 32.

Definition unknown (c : chunk) : Prop :=
  well_formed c /\ chunk_id c <> b "fmt ".

(** The first 16 bytes of the payload of a [fmt ] chunk: format code at
    0, channel count at 2, sample rate at 4, bits-per-sample at 14; the
    six bytes in between hold the byte rate and the block alignment. *)
Definition fmt_fields (audio_format channel_count rate bits_per_sample : Z)
           (between : bytes) : bytes :=
  le_split 2 audio_format ++ le_split 2 channel_count ++ le_split 4 rate
  ++ between ++ le_split 2 bits_per_sample.

(** The 12-byte file header, then the chunks. *)
Definition riff (size : bytes) (chunks : bytes) : bytes :=
  b "RIFF" ++ size ++ b "WAVE" ++ chunks.

(** The chunk walk of section 4.4 over the bytes at hand: from [pos],
    a chunk header is read while more than 8 bytes are left; a [fmt ]
    chunk ends the walk at its position, any other chunk is skipped by
    its declared length plus the 8 bytes of its header; [None] is the
    walk that exhausts the input. *)
Inductive walk (header : bytes) : Z -> option Z -> Prop :=
| walk_exhausted (pos : Z) :
    len header - 8 <= pos -> walk header pos None
| walk_found (pos : Z) :
    pos < len header - 8 ->
    slice header pos (pos + 4) = b "fmt " ->
    walk header pos (Some pos)
| walk_skip (pos : Z) (found : option Z) :
    pos < len header - 8 ->
    slice header pos (pos + 4) <> b "fmt " ->
    walk header (pos + 8 + le_combine (slice header (pos + 4) (pos + 8))) found ->
    walk header pos found.

(** The RIFF/WAVE magic at its fixed offsets. *)
Definition magic (header : bytes) : Prop :=
  slice header 0 4 = b "RIFF" /\ slice header 8 12 = b "WAVE".

(** The declared length of the chunk at [pos]. *)
Definition declared_length (header : bytes) (pos : Z) : Z :=
  le_combine (slice header (pos + 4) (pos + 8)).

(** The bytes of the payload of the chunk at [pos] that are at hand. *)
Definition payload_at (header : bytes) (pos : Z) : bytes :=
  slice header (pos + 8) (pos + 8 + declared_length header pos).

(** [parse_wav_header] fails: it raises instead of returning. *)
Definition parse_fails (header : bytes) : Prop :=
  exists e, Micro.parse_wav_header header = Some (Raise e).

(** The error condition of section 4.4 read as the only one: the parse
    fails if and only if the magic is absent or the walk exhausts the
    input without a [fmt ] chunk. *)
Definition fails_only_without_magic_or_fmt (header : bytes) : Prop :=
  parse_fails header <-> (~ magic header \/ walk header 12 None).

(** The assembler property of section 8: the frames sent for a sequence
    of reads are the frames of the concatenation of the reads. *)
Definition assembled_as_one_stream (reads : list bytes) : Prop :=
  Micro.stream_loop {| Micro.sm_put := [] |} reads
  = Ok {| Micro.sm_put := map word_of (frames_of (concat reads)) |}.

(** ** The host-side normalization contract *)

(** A readable WAV input of bit depth 8, 16, 24 or 32 and of one or two
    channels: the sample rate is a non-zero 32-bit field, and the reader
    hands out [getnframes()] whole frames. *)
Definition readable (wf : Ps.Wave_read) : Prop :=
  (Ps.getnchannels wf = 1 \/ Ps.getnchannels wf = 2)
  /\ (Ps.getsampwidth wf = 1 \/ Ps.getsampwidth wf = 2
      \/ Ps.getsampwidth wf = 3 \/ Ps.getsampwidth wf = 4)
  /\ 0 < Ps.getframerate wf < 2 ^ 32
  /\ 0 <= Ps.getnframes wf
  /\ len (Ps.readframes wf)
     = Ps.getnframes wf * Ps.getnchannels wf * Ps.getsampwidth wf.

(** A 16-bit stereo PCM file: the 44 bytes of header around [frames]. *)
Definition stereo16_wav (framerate : Z) (frames : bytes) : bytes :=
  b "RIFF" ++ le_split 4 (36 + len frames) ++ b "WAVE"
  ++ b "fmt " ++ le_split 4 16 ++ le_split 2 1 ++ le_split 2 2
  ++ le_split 4 framerate ++ le_split 4 (framerate * 2 * 2)
  ++ le_split 2 (2 * 2) ++ le_split 2 16
  ++ b "data" ++ le_split 4 (len frames) ++ frames.

(** The declared length of the [data] chunk of such a file. *)
Definition data_length (out : bytes) : Z := le_combine (slice out 40 44).

(** Normalization followed by parsing: the output parses to
    {PCM, 2 channels, the input's sample rate, 16 bits} and its [data]
    chunk holds whole stereo frames. *)
Definition round_trips (wf : Ps.Wave_read) : Prop :=
  exists out,
    Ps.convert_to_stereo_16bit wf = Ok out
    /\ Micro.parse_wav_header out
       = Some (Ok {| Micro.format := 1; Micro.channels := 2;
                     Micro.sample_rate := Ps.getframerate wf;
                     Micro.bits := 16 |})
    /\ data_length out mod 4 = 0.

(** ** SampleFifo *)

(** Modelled from the spec: the bounded queue of section 4.2 between
    [sm.put] and the state machine, which is part of the RP2040 and of
    its MicroPython driver and has no source here. [push] and [pop]
    return [None] where the caller would block. *)
Module SampleFifo.

Record t : Type := { capacity : nat; entries : list Z }.

Definition empty (C : nat) : t := {| capacity := C; entries := [] |}.

Definition size (q : t) : nat := length (entries q).

Definition push (q : t) (frame : Z) : option t :=
  if Nat.ltb (size q) (capacity q)
  then Some {| capacity := capacity q; entries := entries q ++ [frame] |}
  else None.

Definition pop (q : t) : option (Z * t) :=
  match entries q with
  | [] => None
  | frame :: rest => Some (frame, {| capacity := capacity q; entries := rest |})
  end.

End SampleFifo.

(** One transmission session seen from the fifo: the producer's
    [send_sample(left, right)] and the consumer's pop, in any order. *)
Inductive op : Type :=
| Push (left right : Z)
| Pop.

Record session : Type := {
  fifo : SampleFifo.t;
  pushed : list Z;
  popped : list Z
}.

Definition start (C : nat) : session :=
  {| fifo := SampleFifo.empty C; pushed := []; popped := [] |}.

(** [send_sample] packs the frame as in the source and hands the word to
    the fifo. An operation that would block is not part of an
    interleaving: the run has no result. *)
Definition step (s : session) (o : op) : option session :=
  match o with
  | Push l r =>
      let sample := Micro.pack_sample l r in
      match SampleFifo.push (fifo s) sample with
      | Some q => Some {| fifo := q; pushed := pushed s ++ [sample];
                          popped := popped s |}
      | None => None
      end
  | Pop =>
      match SampleFifo.pop (fifo s) with
      | Some (frame, q) => Some {| fifo := q; pushed := pushed s;
                                   popped := popped s ++ [frame] |}
      | None => None
      end
  end.

Fixpoint run (s : session) (ops : list op) : option session :=
  match ops with
  | [] => Some s
  | o :: ops' =>
      match step s o with
      | Some s' => run s' ops'
      | None => None
      end
  end.

(** The frames an interleaving pushes, in order. *)
Fixpoint pushes (ops : list op) : list Z :=
  match ops with
  | [] => []
  | Push l r :: ops' => Micro.pack_sample l r :: pushes ops'
  | Pop :: ops' => pushes ops'
  end.

(** What every reachable session satisfies. *)
Definition conserved (s : session) : Prop :=
  pushed s = popped s ++ SampleFifo.entries (fifo s)
  /\ (SampleFifo.size (fifo s) <= SampleFifo.capacity (fifo s))%nat.

End Spec.

(* ===================================================================== *)
(** * Concrete inputs *)
(* ===================================================================== *)

Module Scenario.

Import Stdlib.Init.Byte.

(** The end-to-end input of section 8. *)
Definition pcm_payload : bytes := [x01; x00; x02; x00; xff; xff; x00; x80].

Definition fmt_payload : bytes :=
  [ x01; x00              (* PCM *)
  ; x02; x00              (* 2 channels *)
  ; x44; xac; x00; x00    (* 44100 Hz *)
  ; x10; xb1; x02; x00    (* byte rate 176400 *)
  ; x04; x00              (* block align *)
  ; x10; x00 ].           (* 16 bits *)

Definition wav : bytes :=
  b "RIFF" ++ [x2c; x00; x00; x00] ++ b "WAVE"
  ++ b "fmt " ++ [x10; x00; x00; x00] ++ fmt_payload
  ++ b "data" ++ [x08; x00; x00; x00] ++ pcm_payload.

(** A fresh transmitter: nothing handed to the state machine yet. *)
Definition fresh : Micro.I2SSlaveTX := {| Micro.sm_put := [] |}.

(** One frame in two reads of two bytes. *)
Definition split_frame : list bytes := [[x01; x00]; [x02; x00]].

(** Two reads: a whole frame, then a frame and one byte more. *)
Definition aligned_reads : list bytes :=
  [[x01; x00; x02; x00]; [xff; xff; x00; x80; x05]].

(** GPIO levels of one cycle: word-select high and every other pin,
    the bit clock among them, low. *)
Definition ws_high_bck_low (gpio : Z) : bool := gpio =? Micro.WS_PIN.

(** GPIO levels of one cycle: the bit clock high and every other pin,
    word-select among them, low. *)
Definition ws_low_bck_high (gpio : Z) : bool := gpio =? Micro.BCK_PIN.

(** GPIO levels of one cycle with GPIO 0 at [gp0] and GPIO 1 at [gp1]. *)
Definition levels (gp0 gp1 : bool) (gpio : Z) : bool :=
  if gpio =? 0 then gp0 else if gpio =? 1 then gp1 else false.

(** Sixteen bits shifted by the program as it is assembled: GPIO 1 goes
    high for the [wait] and the [out], low for the [wait] and the [jmp]. *)
Definition sixteen_bits (gp0 : bool) : list (Z -> bool) :=
  concat (repeat [levels gp0 true; levels gp0 true;
                  levels gp0 false; levels gp0 false] 16).

(** One pass through the program: GPIO 0 low, sixteen pulses of GPIO 1,
    GPIO 0 high, sixteen pulses of GPIO 1. *)
Definition one_pass : list (Z -> bool) :=
  [levels false false; levels false false] ++ sixteen_bits false
  ++ [levels true false; levels true false] ++ sixteen_bits true.

(** A [fmt ] chunk that announces 16 bytes and is cut after the first. *)
Definition truncated_fmt : bytes :=
  b "RIFF" ++ [x2c; x00; x00; x00] ++ b "WAVE"
  ++ b "fmt " ++ [x10; x00; x00; x00] ++ [x01].

(** A chunk that is not [fmt ], with a payload of odd length. *)
Definition list_chunk : Spec.chunk :=
  {| Spec.chunk_id := b "LIST"; Spec.payload := [x01; x02; x03] |}.

(** A 16-bit stereo file without frames, at 2^30 Hz. *)
Definition fast_wave : Ps.Wave_read :=
  {| Ps.getnchannels := 2; Ps.getsampwidth := 2;
     Ps.getframerate := 2 ^ 30; Ps.getnframes := 0; Ps.readframes := [] |}.

(** An 8-bit mono file of three frames at 8000 Hz. *)
Definition small_wave : Ps.Wave_read :=
  {| Ps.getnchannels := 1; Ps.getsampwidth := 1;
     Ps.getframerate := 8000; Ps.getnframes := 3;
     Ps.readframes := [x00; x80; xff] |}.

(** A 32-bit stereo file of one frame at 48000 Hz. *)
Definition wide_wave : Ps.Wave_read :=
  {| Ps.getnchannels := 2; Ps.getsampwidth := 4;
     Ps.getframerate := 48000; Ps.getnframes := 1;
     Ps.readframes := [x00; x00; x00; x80; xff; xff; xff; x7f] |}.

End Scenario.

(* ===================================================================== *)
(** * Further notions *)
(* ===================================================================== *)

Module Notions.

(** The bytes of a list of frames: each frame as [struct.pack('<hh', left,
    right)] writes it. *)
Definition wire_bytes (frames : list (Z * Z)) : bytes :=
  flat_map (fun f => le_split 2 (fst f) ++ le_split 2 (snd f)) frames.


(** The port passes one of the tests of [find_pico_port]: its description
    contains "USB Serial" or "Pico", or its vendor id is Raspberry Pi's. *)
Definition qualifies (port : Ps.ListPortInfo) : Prop :=
  (exists pre post,
      Ps.description port = (pre ++ "USB Serial" ++ post)%string)
  \/ (exists pre post, Ps.description port = (pre ++ "Pico" ++ post)%string)
  \/ Ps.vid port = Some 0x2E8A.


(** A 16-bit PCM file of [channels] channels: the 44 bytes of header
    [convert_to_stereo_16bit] writes, around [frames]. *)
Definition pcm16_wav (channels framerate : Z) (frames : bytes) : bytes :=
  b "RIFF" ++ le_split 4 (36 + len frames) ++ b "WAVE"
  ++ b "fmt " ++ le_split 4 16 ++ le_split 2 1 ++ le_split 2 channels
  ++ le_split 4 framerate ++ le_split 4 (framerate * channels * 2)
  ++ le_split 2 (channels * 2) ++ le_split 2 16
  ++ b "data" ++ le_split 4 (len frames) ++ frames.

(** The bytes of a list of 16-bit samples, as [struct.pack('<Nh', ...)]
    writes them. *)
Definition sample_bytes (samples : list Z) : bytes :=
  flat_map (le_split 2) samples.

(** The RIFF size field of a file: bytes 4 to 7. *)
Definition riff_size (out : bytes) : Z := le_combine (slice out 4 8).

(** The bits of a 32-bit word, most significant first. *)
Definition msb_first (w : Z) : list bool :=
  map (fun i => Z.testbit w (31 - Z.of_nat i)) (seq 0 32).

(** [n] passes through the program, one after the other. *)
Definition passes (n : nat) : list (Z -> bool) :=
  concat (repeat Scenario.one_pass n).

End Notions.

(* ===================================================================== *)
(** * Packing of a stereo sample *)
(* ===================================================================== *)

Section PackSample.

Lemma land_FFFF (v : Z) : Z.land v 0xFFFF = v mod 2 ^ 16.
Proof. change 0xFFFF with (Z.ones 16). apply Z.land_ones. lia. Qed.

Lemma lor_high_low (hi lo : Z) :
  0 <= lo < 2 ^ 16 -> Z.lor (Z.shiftl hi 16) lo = hi * 2 ^ 16 + lo.
Proof.
  intros Hlo.
  assert (Hdisj : Z.land (Z.shiftl hi 16) lo = 0).
  { rewrite <- (Z.mod_small lo (2 ^ 16)) by lia.
    rewrite <- Z.land_ones by lia.
    apply Z.bits_inj'; intros n Hn.
    rewrite !Z.land_spec, Z.bits_0.
    destruct (Z.ltb_spec n 16).
    - rewrite Z.shiftl_spec_low by lia. reflexivity.
    - rewrite Z.ones_spec_high by lia. rewrite !andb_false_r. reflexivity. }
  rewrite <- Z.lxor_lor, <- Z.add_nocarry_lxor by exact Hdisj.
  rewrite Z.shiftl_mul_pow2 by lia. reflexivity.
Qed.

Lemma pack_sample_arith (left right : Z) :
  Micro.pack_sample left right = (left mod 2 ^ 16) * 2 ^ 16 + right mod 2 ^ 16.
Proof.
  unfold Micro.pack_sample. rewrite !land_FFFF.
  apply lor_high_low. apply Z.mod_pos_bound. lia.
Qed.

Lemma pack_sample_range (left right : Z) :
  0 <= Micro.pack_sample left right < 2 ^ 32.
Proof.
  rewrite pack_sample_arith.
  pose proof (Z.mod_pos_bound left (2 ^ 16) ltac:(lia)).
  pose proof (Z.mod_pos_bound right (2 ^ 16) ltac:(lia)).
  lia.
Qed.

Lemma to_signed_wrap (v : Z) :
  Spec.int16 v -> to_signed 16 (v mod 2 ^ 16) = v.
Proof.
  unfold Spec.int16, to_signed. intros Hv.
  destruct (Z.ltb_spec (v mod 2 ^ 16) (2 ^ (16 - 1))) as [Hlt | Hge];
    destruct (Z.neg_nonneg_cases v) as [Hneg | Hpos].
  - rewrite <- (Z.mod_add v 1) in Hlt by lia.
    rewrite Z.mod_small in Hlt; lia.
  - apply Z.mod_small; lia.
  - rewrite <- (Z.mod_add v 1) by lia. rewrite Z.mod_small; lia.
  - rewrite Z.mod_small in Hge; lia.
Qed.

Lemma frame_of_pack_sample (left right : Z) :
  Spec.int16 left -> Spec.int16 right ->
  Spec.frame_of (Micro.pack_sample left right) = (left, right).
Proof.
  intros Hl Hr. unfold Spec.frame_of. rewrite pack_sample_arith.
  pose proof (Z.mod_pos_bound left (2 ^ 16) ltac:(lia)).
  pose proof (Z.mod_pos_bound right (2 ^ 16) ltac:(lia)).
  rewrite Z.div_add_l, Z.div_small, Z.add_0_r by lia.
  rewrite Z.add_comm, Z.mod_add, Zmod_mod by lia.
  rewrite !to_signed_wrap by assumption. reflexivity.
Qed.

End PackSample.

(** C7: for every pair of signed 16-bit integers, [send_sample] hands the
    state machine one unsigned 32-bit word equal to
    [(left mod 2^16) * 2^16 + (right mod 2^16)]: the left sample's
    two's-complement bits are the high 16 bits, the right sample's the low
    16 bits (so the two samples can be read back from the word), and the
    word lies in [[0, 2^32)]. *)
Theorem send_sample_packs (self : Micro.I2SSlaveTX) (left right : Z) :
  Spec.int16 left -> Spec.int16 right ->
  exists w,
    Micro.sm_put (Micro.send_sample self left right) = Micro.sm_put self ++ [w]
    /\ w = (left mod 2 ^ 16) * 2 ^ 16 + right mod 2 ^ 16
    /\ w / 2 ^ 16 = left mod 2 ^ 16
    /\ w mod 2 ^ 16 = right mod 2 ^ 16
    /\ Spec.frame_of w = (left, right)
    /\ 0 <= w < 2 ^ 32.
Proof.
  intros Hleft Hright. exists (Micro.pack_sample left right).
  pose proof (pack_sample_range left right) as Hr.
  pose proof (pack_sample_arith left right) as Ha.
  pose proof (Z.mod_pos_bound left (2 ^ 16) ltac:(lia)) as Hl.
  pose proof (Z.mod_pos_bound right (2 ^ 16) ltac:(lia)) as Hrr.
  repeat split; try tauto.
  - rewrite Ha. rewrite Z.div_add_l by lia.
    rewrite Z.div_small by lia. lia.
  - rewrite Ha. rewrite Z.add_comm, Z.mod_add by lia.
    apply Z.mod_small. lia.
  - apply frame_of_pack_sample; assumption.
Qed.

Lemma send_sample_packs_witness :
  exists w,
    Micro.sm_put (Micro.send_sample Scenario.fresh (-1) (-32768)) = [] ++ [w]
    /\ w = ((-1) mod 2 ^ 16) * 2 ^ 16 + (-32768) mod 2 ^ 16
    /\ w / 2 ^ 16 = (-1) mod 2 ^ 16
    /\ w mod 2 ^ 16 = (-32768) mod 2 ^ 16
    /\ Spec.frame_of w = (-1, -32768)
    /\ 0 <= w < 2 ^ 32.
Proof.
  apply (send_sample_packs Scenario.fresh (-1) (-32768)); unfold Spec.int16; lia.
Defined.

(* ===================================================================== *)
(** * The end-to-end scenario *)
(* ===================================================================== *)

(** C6: for the RIFF/WAVE input with a 16-byte [fmt ] chunk (PCM, 2
    channels, 44100 Hz, 16 bits) and a [data] chunk holding
    01 00 02 00 FF FF 00 80, parsing (the whole input, or the 44 bytes
    [stream_audio] reads) yields {PCM, 2 channels, 44100 Hz, 16-bit}, and
    feeding the payload to [send_samples] sends exactly two frames, first
    (1, 2), then (-1, -32768). *)
Theorem end_to_end_scenario :
  let info := {| Micro.format := 1; Micro.channels := 2;
                 Micro.sample_rate := 44100; Micro.bits := 16 |} in
  Micro.parse_wav_header Scenario.wav = Some (Ok info)
  /\ Micro.parse_wav_header (slice Scenario.wav 0 44) = Some (Ok info)
  /\ Micro.send_samples Scenario.fresh (Micro.Buffer Scenario.pcm_payload)
     = Ok (Micro.send_sample (Micro.send_sample Scenario.fresh 1 2) (-1) (-32768))
  /\ Micro.send_samples Scenario.fresh (Micro.Buffer Scenario.pcm_payload)
     = Ok {| Micro.sm_put := [65538; 4294934528] |}
  /\ map Spec.frame_of [65538; 4294934528] = [(1, 2); (-1, -32768)]
  /\ Spec.frames_of Scenario.pcm_payload = [(1, 2); (-1, -32768)].
Proof. repeat split; vm_compute; reflexivity. Qed.

(* ===================================================================== *)
(** * The bit-transmission state machine *)
(* ===================================================================== *)

Section BitClockFollower.

Local Abbreviation cfg := (Micro.sm_config Micro.BCK_PIN Micro.WS_PIN Micro.SD_PIN).

(** The first [wait] of the program samples GPIO [in_base + 0], the bit
    clock: while that pin is high the machine stays where it is,
    whatever word-select does. *)
Lemma stalls_while_bck_high (trace : list (Z -> bool)) (s : PIO.state) :
  PIO.pc s = 0%nat ->
  Forall (fun gpio => gpio Micro.BCK_PIN = true) trace ->
  PIO.run cfg Micro.i2s_slave_tx trace s = s.
Proof.
  intros Hpc. induction 1 as [| gpio trace Hg _ IH]; [reflexivity |].
  unfold PIO.run in *. cbn [fold_left].
  replace (PIO.step cfg Micro.i2s_slave_tx gpio s) with s; [exact IH |].
  unfold PIO.step. rewrite Hpc. cbn.
  change (gpio 0) with (gpio Micro.BCK_PIN). rewrite Hg. reflexivity.
Qed.

(** No instruction of the program is a [pull]: the words handed to
    [sm.put] stay in the TX fifo, whatever the pins do. *)
Lemma tx_fifo_untouched (trace : list (Z -> bool)) :
  forall s : PIO.state,
    PIO.tx_fifo (PIO.run cfg Micro.i2s_slave_tx trace s) = PIO.tx_fifo s.
Proof.
  induction trace as [| gpio trace IH]; intros s; [reflexivity |].
  unfold PIO.run in *. cbn [fold_left]. rewrite IH.
  unfold PIO.step.
  destruct (nth_error Micro.i2s_slave_tx (PIO.pc s)) as [i |] eqn:Hi;
    [| reflexivity].
  assert (Hnot : i <> PIO.pull).
  { intros ->. apply nth_error_In in Hi. cbn in Hi.
    repeat (destruct Hi as [Hi | Hi]; [discriminate |]). exact Hi. }
  destruct i as [polarity index | value | count | target |]; cbn [PIO.tx_fifo].
  - destruct (Bool.eqb _ polarity); reflexivity.
  - reflexivity.
  - destruct (PIO.shift_out_n _ count _). reflexivity.
  - reflexivity.
  - congruence.
Qed.

(** The program as it is assembled, on one pass with GPIO 0 as the
    channel select and GPIO 1 as the bit pacing: the 32 bits of the
    output shift register leave most-significant bit first, sixteen per
    half, and the program is back at its first instruction. *)
Example one_pass_shifts_msb_first :
  let s := PIO.run cfg Micro.i2s_slave_tx Scenario.one_pass
                   (PIO.reset (Micro.pack_sample 1 2) []) in
  PIO.pc s = 0%nat
  /\ PIO.driven s
     = map (Z.testbit (Micro.pack_sample 1 2))
           [31; 30; 29; 28; 27; 26; 25; 24; 23; 22; 21; 20; 19; 18; 17; 16;
            15; 14; 13; 12; 11; 10; 9; 8; 7; 6; 5; 4; 3; 2; 1; 0].
Proof. split; vm_compute; reflexivity. Qed.

(** C2, at word-select held high: the program leaves its first [wait] on
    the bit clock being low and drives the first left-channel bit four
    cycles after the start, although word-select was never low; and
    with word-select low throughout and the bit clock held high it never
    leaves the first [wait]. The comments of the program say [WS] at
    the waits on index 0 and [BCK] at the waits on index 1, but with
    [in_base = bck_pin] index 0 is the bit clock and index 1 is
    word-select. Whatever the pins do, no word leaves the TX fifo. *)
Theorem i2s_slave_tx_ignores_word_select (osr0 : Z) (fifo : list Z) :
  let early := repeat Scenario.ws_high_bck_low 4 in
  Forall (fun gpio => gpio Micro.WS_PIN = true) early
  /\ PIO.pc (PIO.run cfg Micro.i2s_slave_tx early (PIO.reset osr0 fifo)) = 4%nat
  /\ PIO.driven (PIO.run cfg Micro.i2s_slave_tx early (PIO.reset osr0 fifo))
     = [Z.testbit osr0 31]
  /\ (forall n : nat,
         let late := repeat Scenario.ws_low_bck_high n in
         Forall (fun gpio => gpio Micro.WS_PIN = false) late
         /\ PIO.run cfg Micro.i2s_slave_tx late (PIO.reset osr0 fifo)
            = PIO.reset osr0 fifo)
  /\ (forall trace : list (Z -> bool),
         PIO.tx_fifo (PIO.run cfg Micro.i2s_slave_tx trace (PIO.reset osr0 fifo))
         = fifo).
Proof.
  cbv zeta. split; [| split; [| split; [| split]]].
  - repeat constructor.
  - reflexivity.
  - reflexivity.
  - intros n. split.
    + apply Forall_forall. intros g Hg. apply repeat_spec in Hg. subst g.
      reflexivity.
    + apply stalls_while_bck_high; [reflexivity |].
      apply Forall_forall. intros g Hg. apply repeat_spec in Hg. subst g.
      reflexivity.
  - intros trace. apply tx_fifo_untouched.
Qed.

End BitClockFollower.

(* ===================================================================== *)
(** * The sample fifo *)
(* ===================================================================== *)

Section SampleFifo.

Import Spec.

Lemma step_conserved (s s' : session) (o : op) :
  step s o = Some s' -> conserved s ->
  conserved s'
  /\ pushed s' = pushed s ++ pushes [o]
  /\ SampleFifo.capacity (fifo s') = SampleFifo.capacity (fifo s).
Proof.
  unfold conserved, step, SampleFifo.push, SampleFifo.pop, SampleFifo.size.
  destruct s as [[C q] ps pp];
    cbn [fifo pushed popped SampleFifo.entries SampleFifo.capacity pushes app].
  destruct o as [l r |].
  - destruct (Nat.ltb_spec (length q) C); [| discriminate].
    intros Hstep [Hc Hsz]. injection Hstep as Heq. subst s'. cbn.
    rewrite Hc, length_app, app_assoc. cbn. repeat split; lia.
  - destruct q as [| f q]; [discriminate |].
    intros Hstep [Hc Hsz]. injection Hstep as Heq. subst s'. cbn in *.
    rewrite Hc, <- app_assoc, app_nil_r. repeat split; lia.
Qed.

Lemma run_conserved (ops : list op) :
  forall s s', run s ops = Some s' -> conserved s ->
  conserved s'
  /\ pushed s' = pushed s ++ pushes ops
  /\ SampleFifo.capacity (fifo s') = SampleFifo.capacity (fifo s).
Proof.
  induction ops as [| o ops IH]; intros s s' Hrun Hs.
  - cbn in Hrun. injection Hrun as Heq. subst s'. rewrite app_nil_r. auto.
  - cbn [run] in Hrun. destruct (step s o) as [s1 |] eqn:Hstep; [| discriminate].
    destruct (step_conserved _ _ _ Hstep Hs) as (Hs1 & Hp1 & Hc1).
    destruct (IH _ _ Hrun Hs1) as (Hs' & Hp' & Hc').
    repeat split; try apply Hs'.
    + rewrite Hp', Hp1, <- app_assoc. f_equal.
      destruct o; reflexivity.
    + congruence.
Qed.

Lemma run_app (ops1 ops2 : list op) :
  forall s, run s (ops1 ++ ops2)
            = match run s ops1 with Some s1 => run s1 ops2 | None => None end.
Proof.
  induction ops1 as [| o ops1 IH]; intros s; cbn; [reflexivity |].
  destruct (step s o); [apply IH | reflexivity].
Qed.

(** Pushing while there is room. *)
Lemma run_pushes (frames : list (Z * Z)) :
  forall s,
    (SampleFifo.size (fifo s) + length frames <= SampleFifo.capacity (fifo s))%nat ->
    run s (map (fun f => Push (fst f) (snd f)) frames)
    = Some {| fifo := {| SampleFifo.capacity := SampleFifo.capacity (fifo s);
                         SampleFifo.entries :=
                           SampleFifo.entries (fifo s)
                           ++ map (fun f => Micro.pack_sample (fst f) (snd f)) frames |};
              pushed := pushed s
                        ++ map (fun f => Micro.pack_sample (fst f) (snd f)) frames;
              popped := popped s |}.
Proof.
  induction frames as [| f frames IH]; intros [[C q] ps pp] Hroom.
  - cbn. rewrite !app_nil_r. reflexivity.
  - unfold SampleFifo.size in Hroom.
    cbn [fifo SampleFifo.entries SampleFifo.capacity length] in Hroom.
    cbn [map run step fifo pushed popped].
    unfold SampleFifo.push, SampleFifo.size.
    cbn [SampleFifo.entries SampleFifo.capacity].
    destruct (Nat.ltb_spec (length q) C); [| lia].
    rewrite IH.
    + cbn [fifo pushed popped SampleFifo.entries SampleFifo.capacity].
      rewrite <- !app_assoc. reflexivity.
    + unfold SampleFifo.size.
      cbn [fifo SampleFifo.entries SampleFifo.capacity].
      rewrite length_app. cbn [length]. lia.
Qed.

(** Popping everything that is queued. *)
Lemma run_pops (q : list Z) :
  forall C ps pp,
    run {| fifo := {| SampleFifo.capacity := C; SampleFifo.entries := q |};
           pushed := ps; popped := pp |} (repeat Pop (length q))
    = Some {| fifo := SampleFifo.empty C; pushed := ps; popped := pp ++ q |}.
Proof.
  induction q as [| f q IH]; intros C ps pp; cbn.
  - rewrite app_nil_r. reflexivity.
  - rewrite IH, <- app_assoc. reflexivity.
Qed.

End SampleFifo.

(** C3: in every interleaving of pushes ([send_sample]) and pops that runs
    from the start of a session, the frames pushed are the packed words of
    the [send_sample] calls in call order, and they are exactly the frames
    popped so far followed by the frames still queued: nothing is lost,
    duplicated or reordered, and at most [C] frames are outstanding. In
    particular a pop right after [push(f)] returns [f], and [N <= C]
    pushes followed by [N] pops return the push sequence and leave the
    fifo empty. *)
Theorem sample_fifo_order (C : nat) :
  (forall ops s,
      Spec.run (Spec.start C) ops = Some s ->
      Spec.pushed s = Spec.pushes ops
      /\ Spec.pushed s = Spec.popped s ++ Spec.SampleFifo.entries (Spec.fifo s)
      /\ (Spec.SampleFifo.size (Spec.fifo s) <= C)%nat)
  /\ (forall left right,
         (0 < C)%nat ->
         exists s, Spec.run (Spec.start C) [Spec.Push left right; Spec.Pop] = Some s
                   /\ Spec.popped s = [Micro.pack_sample left right])
  /\ (forall frames : list (Z * Z),
         (length frames <= C)%nat ->
         exists s,
           Spec.run (Spec.start C)
                    (map (fun f => Spec.Push (fst f) (snd f)) frames
                     ++ repeat Spec.Pop (length frames)) = Some s
           /\ Spec.popped s = map (fun f => Micro.pack_sample (fst f) (snd f)) frames
           /\ Spec.SampleFifo.entries (Spec.fifo s) = []).
Proof.
  split; [| split].
  - intros ops s Hrun.
    destruct (run_conserved ops _ _ Hrun) as ((Hc & Hsz) & Hp & Hcap).
    { split; cbn; [reflexivity | lia]. }
    cbn in Hp, Hcap. rewrite Hcap in Hsz. split; [| split]; assumption.
  - intros left right HC.
    unfold Spec.start, Spec.run, Spec.step, Spec.SampleFifo.push,
      Spec.SampleFifo.size, Spec.SampleFifo.empty.
    cbn [Spec.fifo Spec.SampleFifo.entries Spec.SampleFifo.capacity length].
    destruct (Nat.ltb_spec 0 C); [| lia]. cbn. eauto.
  - intros frames Hlen. rewrite run_app, run_pushes by (cbn; lia). cbn.
    rewrite <- (length_map (fun f => Micro.pack_sample (fst f) (snd f)) frames).
    rewrite run_pops. eexists. split; [reflexivity |]. cbn. auto.
Qed.

Lemma sample_fifo_order_witness :
  Spec.run (Spec.start 4) [Spec.Push 1 2; Spec.Push (-1) (-32768); Spec.Pop]
  = Some {| Spec.fifo := {| Spec.SampleFifo.capacity := 4;
                            Spec.SampleFifo.entries := [4294934528] |};
            Spec.pushed := [65538; 4294934528];
            Spec.popped := [65538] |}
  /\ [65538; 4294934528] = [65538] ++ [4294934528]
  /\ (exists s, Spec.run (Spec.start 4) [Spec.Push 1 2; Spec.Pop] = Some s
                /\ Spec.popped s = [Micro.pack_sample 1 2])
  /\ (exists s,
         Spec.run (Spec.start 4)
                  (map (fun f => Spec.Push (fst f) (snd f)) [(1, 2); (-1, -32768)]
                   ++ repeat Spec.Pop 2) = Some s
         /\ Spec.popped s
            = map (fun f => Micro.pack_sample (fst f) (snd f)) [(1, 2); (-1, -32768)]
         /\ Spec.SampleFifo.entries (Spec.fifo s) = []).
Proof.
  destruct (sample_fifo_order 4) as (Hinv & Hone & Hmany).
  split; [reflexivity |]. split.
  - exact (proj1 (proj2 (Hinv _ _ (eq_refl :
      Spec.run (Spec.start 4) [Spec.Push 1 2; Spec.Push (-1) (-32768); Spec.Pop]
      = Some {| Spec.fifo := {| Spec.SampleFifo.capacity := 4;
                                Spec.SampleFifo.entries := [4294934528] |};
                Spec.pushed := [65538; 4294934528];
                Spec.popped := [65538] |})))).
  - split.
    + apply (Hone 1 2). lia.
    + apply (Hmany [(1, 2); (-1, -32768)]). cbn. lia.
Defined.

(* ===================================================================== *)
(** * Slices *)
(* ===================================================================== *)

Section Slices.

Context {A : Type}.

Lemma slice_length (buf : list A) (lo hi : Z) :
  0 <= lo -> len (slice buf lo hi) = Z.max 0 (Z.min (hi - lo) (len buf - lo)).
Proof.
  intros Hlo. unfold slice, len. rewrite length_firstn, length_skipn. lia.
Qed.

Lemma slice_full_length (buf : list A) (lo hi : Z) :
  0 <= lo <= hi -> hi <= len buf -> length (slice buf lo hi) = Z.to_nat (hi - lo).
Proof.
  intros Hlo Hhi. pose proof (slice_length buf lo hi ltac:(lia)) as H.
  unfold len in *. lia.
Qed.

Lemma slice_app_r (pre rest : list A) (lo hi : Z) :
  0 <= lo -> slice (pre ++ rest) (len pre + lo) (len pre + hi) = slice rest lo hi.
Proof.
  intros Hlo. unfold slice, len.
  replace (Z.of_nat (length pre) + hi - (Z.of_nat (length pre) + lo)) with (hi - lo) by lia.
  replace (Z.to_nat (Z.of_nat (length pre) + lo)) with (length pre + Z.to_nat lo)%nat by lia.
  rewrite skipn_app, skipn_all2 by lia.
  replace (length pre + Z.to_nat lo - length pre)%nat with (Z.to_nat lo) by lia.
  reflexivity.
Qed.

Lemma slice_app_l (pre rest : list A) (hi : Z) :
  hi = len pre -> slice (pre ++ rest) 0 hi = pre.
Proof.
  intros ->. unfold slice, len. cbn [Z.to_nat skipn].
  rewrite Z.sub_0_r, Nat2Z.id, firstn_app, Nat.sub_diag, firstn_all.
  cbn. apply app_nil_r.
Qed.

Lemma slice_slice (buf : list A) (lo hi lo' hi' : Z) :
  0 <= lo -> 0 <= lo' <= hi' -> hi' <= hi - lo ->
  slice (slice buf lo hi) lo' hi' = slice buf (lo + lo') (lo + hi').
Proof.
  intros Hlo Hlo' Hhi. unfold slice.
  replace (lo + hi' - (lo + lo')) with (hi' - lo') by lia.
  rewrite skipn_firstn_comm, firstn_firstn, skipn_skipn.
  f_equal; [lia | f_equal; lia].
Qed.

End Slices.

Lemma bytes_eqb_eq (x y : bytes) : bytes_eqb x y = true <-> x = y.
Proof.
  revert y. induction x as [| c x IH]; destruct y as [| d y]; cbn;
    try (split; intros; congruence).
  rewrite andb_true_iff, IH. split.
  - intros [Hcd ->]. apply Byte.byte_dec_bl in Hcd. congruence.
  - intros [= -> ->]. split; [apply Byte.byte_dec_lb |]; reflexivity.
Qed.

Lemma bytes_eqb_neq (x y : bytes) : bytes_eqb x y = false <-> x <> y.
Proof.
  rewrite <- bytes_eqb_eq. destruct (bytes_eqb x y); split; congruence.
Qed.

(* ===================================================================== *)
(** * parse_wav_header: the chunk walk *)
(* ===================================================================== *)

Section ParseWavHeader.

Import Micro.

Lemma unpack_exact (n : nat) (signed : bool) (buf : bytes) :
  length buf = n ->
  unpack n signed buf
  = Ok (if signed then to_signed (8 * Z.of_nat n) (le_combine buf)
        else le_combine buf).
Proof. intros H. unfold unpack. rewrite H, Nat.eqb_refl. reflexivity. Qed.

Lemma unpack_wrong_size (n : nat) (signed : bool) (buf : bytes) :
  length buf <> n -> unpack n signed buf = Raise StructError.
Proof.
  intros H. unfold unpack. apply Nat.eqb_neq in H. rewrite H. reflexivity.
Qed.

(** Inside the loop the four bytes of the length field are always there. *)
Lemma chunk_size_in_loop (header : bytes) (pos : Z) :
  0 <= pos -> pos < len header - 8 ->
  unpack_I (slice header (pos + 4) (pos + 8)) = Ok (Spec.declared_length header pos)
  /\ 0 <= Spec.declared_length header pos < 2 ^ 32.
Proof.
  intros Hpos Hlt.
  assert (Hlen : length (slice header (pos + 4) (pos + 8)) = 4%nat).
  { rewrite slice_full_length by lia. lia. }
  split.
  - unfold unpack_I. rewrite unpack_exact by exact Hlen. reflexivity.
  - unfold Spec.declared_length.
    pose proof (le_combine_bound (slice header (pos + 4) (pos + 8))) as Hb.
    rewrite Hlen in Hb. exact Hb.
Qed.

Lemma find_fmt_iterate (fuel : nat) (header : bytes) (pos : Z) :
  0 <= pos -> pos < len header - 8 ->
  find_fmt (S fuel) header pos
  = if bytes_eqb (slice header pos (pos + 4)) (b "fmt ")
    then Some (decode_fmt header pos (Spec.declared_length header pos))
    else find_fmt fuel header (pos + 8 + Spec.declared_length header pos).
Proof.
  intros Hpos Hlt. cbn [find_fmt].
  destruct (Z.ltb_spec pos (len header - 8)); [| lia].
  destruct (chunk_size_in_loop header pos Hpos Hlt) as [-> _]. reflexivity.
Qed.

Lemma find_fmt_leave (fuel : nat) (header : bytes) (pos : Z) :
  len header - 8 <= pos ->
  find_fmt (S fuel) header pos = Some (Raise No_fmt_chunk_found).
Proof.
  intros Hge. cbn [find_fmt].
  destruct (Z.ltb_spec pos (len header - 8)); [lia | reflexivity].
Qed.

(** Every iteration moves [pos] forward by at least 8, so a budget above
    the distance to the end of the header is never used up. *)
Lemma find_fmt_total (fuel : nat) :
  forall (header : bytes) (pos : Z),
    0 <= pos -> (1 <= fuel)%nat -> len header - pos < Z.of_nat fuel ->
    exists r, find_fmt fuel header pos = Some r.
Proof.
  induction fuel as [| fuel IH]; intros header pos Hpos Hfuel Hdist; [lia |].
  destruct (Z.lt_ge_cases pos (len header - 8)) as [Hlt | Hge].
  - rewrite find_fmt_iterate by assumption.
    destruct (bytes_eqb _ _); [eauto |].
    destruct (chunk_size_in_loop header pos Hpos Hlt) as [_ Hsize].
    apply IH; lia.
  - rewrite find_fmt_leave by assumption. eauto.
Qed.

Lemma find_fmt_more_fuel (fuel : nat) :
  forall (fuel' : nat) (header : bytes) (pos : Z) (r : result wav_info),
    find_fmt fuel header pos = Some r -> (fuel <= fuel')%nat ->
    find_fmt fuel' header pos = Some r.
Proof.
  induction fuel as [| fuel IH]; intros fuel' header pos r Hr Hle;
    [discriminate |].
  destruct fuel' as [| fuel']; [lia |].
  cbn [find_fmt] in *.
  destruct (pos <? len header - 8); [| exact Hr].
  destruct (unpack_I _); [| exact Hr].
  destruct (bytes_eqb _ _); [exact Hr |].
  apply IH; [exact Hr | lia].
Qed.

Lemma walk_functional (header : bytes) (pos : Z) (r1 r2 : option Z) :
  Spec.walk header pos r1 -> Spec.walk header pos r2 -> r1 = r2.
Proof.
  intros H1. revert r2.
  induction H1 as [pos Hge | pos Hlt Hid | pos found Hlt Hid _ IH];
    intros r2 H2; inversion H2; subst; try lia; try congruence.
  apply IH. assumption.
Qed.

(** The loop follows the walk: it raises "No fmt chunk found" where the
    walk exhausts the input, and decodes the chunk the walk finds. *)
Lemma find_fmt_walk (fuel : nat) :
  forall (header : bytes) (pos : Z) (r : result wav_info),
    0 <= pos -> find_fmt fuel header pos = Some r ->
    (Spec.walk header pos None /\ r = Raise No_fmt_chunk_found)
    \/ (exists p, Spec.walk header pos (Some p)
                  /\ 0 <= p < len header - 8
                  /\ r = decode_fmt header p (Spec.declared_length header p)).
Proof.
  induction fuel as [| fuel IH]; intros header pos r Hpos Hr; [discriminate |].
  destruct (Z.lt_ge_cases pos (len header - 8)) as [Hlt | Hge].
  - rewrite find_fmt_iterate in Hr by assumption.
    destruct (bytes_eqb _ _) eqn:Hid.
    + apply bytes_eqb_eq in Hid. injection Hr as <-. right. exists pos.
      split; [constructor; assumption | split; [lia | reflexivity]].
    + apply bytes_eqb_neq in Hid.
      destruct (chunk_size_in_loop header pos Hpos Hlt) as [_ Hsize].
      apply IH in Hr; [| lia].
      destruct Hr as [[Hw ->] | (p & Hw & Hp & ->)].
      * left. split; [| reflexivity].
        apply Spec.walk_skip; assumption.
      * right. exists p. split; [| split; [lia | reflexivity]].
        apply Spec.walk_skip; assumption.
  - rewrite find_fmt_leave in Hr by assumption. injection Hr as <-.
    left. split; [constructor; assumption | reflexivity].
Qed.

(** Decoding the [fmt ] chunk succeeds exactly when 16 bytes of its
    payload are at hand; otherwise [struct] fails. *)
Lemma decode_fmt_cases (header : bytes) (pos : Z) :
  0 <= pos ->
  let fmt_data := Spec.payload_at header pos in
  (16 <= len fmt_data
   /\ decode_fmt header pos (Spec.declared_length header pos)
      = Ok {| format := le_combine (slice fmt_data 0 2);
              channels := le_combine (slice fmt_data 2 4);
              sample_rate := le_combine (slice fmt_data 4 8);
              bits := le_combine (slice fmt_data 14 16) |})
  \/ (len fmt_data < 16
      /\ decode_fmt header pos (Spec.declared_length header pos) = Raise StructError).
Proof.
  intros Hpos fmt_data. unfold decode_fmt.
  fold (Spec.payload_at header pos). fold fmt_data.
  destruct (Z.le_gt_cases 16 (len fmt_data)) as [Hlen | Hlen]; [left | right];
    (split; [lia |]).
  - unfold unpack_H, unpack_I.
    rewrite !unpack_exact by (rewrite slice_full_length; lia).
    reflexivity.
  - unfold unpack_H, unpack_I.
    assert (Hshort : length (slice fmt_data 14 16) <> 2%nat).
    { pose proof (slice_length fmt_data 14 16 ltac:(lia)) as H.
      unfold len in *. lia. }
    rewrite (unpack_wrong_size 2 false (slice fmt_data 14 16)) by exact Hshort.
    unfold unpack.
    repeat match goal with
           | |- context [Nat.eqb ?a ?c] => destruct (Nat.eqb a c)
           end; reflexivity.
Qed.

Lemma magic_ok_iff (header : bytes) : magic_ok header = true <-> Spec.magic header.
Proof.
  unfold magic_ok, Spec.magic. rewrite andb_true_iff, !bytes_eqb_eq. tauto.
Qed.

Lemma parse_wav_header_total (header : bytes) :
  exists r, parse_wav_header header = Some r.
Proof.
  unfold parse_wav_header, parse_wav_header_fuel.
  destruct (negb (magic_ok header)); [eauto |].
  apply find_fmt_total; unfold len; lia.
Qed.

Lemma parse_wav_header_any_fuel (header : bytes) (fuel : nat) :
  (S (length header) <= fuel)%nat ->
  parse_wav_header_fuel fuel header = parse_wav_header header.
Proof.
  intros Hfuel. unfold parse_wav_header, parse_wav_header_fuel.
  destruct (negb (magic_ok header)); [reflexivity |].
  destruct (find_fmt_total (S (length header)) header 12) as [r Hr];
    [lia | lia | unfold len; lia |].
  rewrite Hr. apply (find_fmt_more_fuel _ _ _ _ _ Hr Hfuel).
Qed.

(** The four outcomes of [parse_wav_header]. *)
Lemma parse_wav_header_cases (header : bytes) :
  (~ Spec.magic header
   /\ parse_wav_header header = Some (Raise Not_a_valid_WAV_file))
  \/ (Spec.magic header /\ Spec.walk header 12 None
      /\ parse_wav_header header = Some (Raise No_fmt_chunk_found))
  \/ (Spec.magic header
      /\ exists p, Spec.walk header 12 (Some p)
                   /\ len (Spec.payload_at header p) < 16
                   /\ parse_wav_header header = Some (Raise StructError))
  \/ (Spec.magic header
      /\ exists p,
          Spec.walk header 12 (Some p)
          /\ 16 <= len (Spec.payload_at header p)
          /\ parse_wav_header header
             = Some (Ok {| format := le_combine (slice (Spec.payload_at header p) 0 2);
                           channels := le_combine (slice (Spec.payload_at header p) 2 4);
                           sample_rate := le_combine (slice (Spec.payload_at header p) 4 8);
                           bits := le_combine (slice (Spec.payload_at header p) 14 16) |})).
Proof.
  unfold parse_wav_header, parse_wav_header_fuel.
  destruct (magic_ok header) eqn:Hmagic; cbn [negb].
  - apply magic_ok_iff in Hmagic. right.
    destruct (find_fmt_total (S (length header)) header 12) as [r Hr];
      [lia | lia | unfold len; lia |].
    rewrite Hr.
    destruct (find_fmt_walk _ header 12 r ltac:(lia) Hr) as [[Hw ->] | (p & Hw & Hp & ->)].
    + left. auto.
    + right.
      destruct (decode_fmt_cases header p ltac:(lia)) as [[Hlen ->] | [Hlen ->]].
      * right. split; [assumption |]. exists p. auto.
      * left. split; [assumption |]. exists p. auto.
  - left. split; [| reflexivity].
    rewrite <- magic_ok_iff. congruence.
Qed.

End ParseWavHeader.

(** C9: [parse_wav_header] terminates on every byte string, returning a
    descriptor or raising: an iteration of the chunk walk either returns
    or moves the position forward by 8 plus the chunk's declared length,
    which is never negative, so at least by 8; once
    [pos < len(header) - 8] fails the loop is left; and one iteration more
    than the header has bytes is a budget that is never used up (a larger
    one gives the same result). *)
Theorem parse_wav_header_terminates (header : bytes) :
  (exists r, Micro.parse_wav_header header = Some r)
  /\ (forall fuel : nat,
         (S (length header) <= fuel)%nat ->
         Micro.parse_wav_header_fuel fuel header = Micro.parse_wav_header header)
  /\ (forall (fuel : nat) (pos : Z),
         0 <= pos -> pos < len header - 8 ->
         exists chunk_size,
           unpack_I (slice header (pos + 4) (pos + 8)) = Ok chunk_size
           /\ 0 <= chunk_size
           /\ pos + 8 <= pos + 8 + chunk_size
           /\ (Micro.find_fmt (S fuel) header pos
               = Some (Micro.decode_fmt header pos chunk_size)
               \/ Micro.find_fmt (S fuel) header pos
                  = Micro.find_fmt fuel header (pos + 8 + chunk_size)))
  /\ (forall (fuel : nat) (pos : Z),
         len header - 8 <= pos ->
         Micro.find_fmt (S fuel) header pos = Some (Raise Micro.No_fmt_chunk_found)).
Proof.
  split; [apply parse_wav_header_total |].
  split; [apply parse_wav_header_any_fuel |].
  split; [| intros; apply find_fmt_leave; assumption].
  intros fuel pos Hpos Hlt.
  destruct (chunk_size_in_loop header pos Hpos Hlt) as [Hsize Hrange].
  exists (Spec.declared_length header pos).
  split; [exact Hsize |]. split; [lia |]. split; [lia |].
  rewrite find_fmt_iterate by assumption.
  destruct (bytes_eqb _ _); auto.
Qed.

Lemma parse_wav_header_terminates_witness :
  (exists r, Micro.parse_wav_header Scenario.wav = Some r)
  /\ Micro.parse_wav_header_fuel 100 Scenario.wav
     = Micro.parse_wav_header Scenario.wav
  /\ exists chunk_size,
      unpack_I (slice Scenario.wav (12 + 4) (12 + 8)) = Ok chunk_size
      /\ 0 <= chunk_size
      /\ 12 + 8 <= 12 + 8 + chunk_size
      /\ (Micro.find_fmt 1 Scenario.wav 12
          = Some (Micro.decode_fmt Scenario.wav 12 chunk_size)
          \/ Micro.find_fmt 1 Scenario.wav 12
             = Micro.find_fmt 0 Scenario.wav (12 + 8 + chunk_size)).
Proof.
  destruct (parse_wav_header_terminates Scenario.wav) as (Hret & Hfuel & Hstep & _).
  split; [exact Hret |]. split.
  - apply (Hfuel 100%nat). apply Nat.leb_le. reflexivity.
  - apply (Hstep 0%nat 12); vm_compute; [discriminate | reflexivity].
Defined.

(* ===================================================================== *)
(** * parse_wav_header: errors *)
(* ===================================================================== *)

(** The truncated [fmt ] chunk: the magic is there and the walk finds the
    chunk, yet the parse fails. *)
Lemma truncated_fmt_fails :
  Spec.magic Scenario.truncated_fmt
  /\ Spec.walk Scenario.truncated_fmt 12 (Some 12)
  /\ Micro.parse_wav_header Scenario.truncated_fmt = Some (Raise StructError).
Proof.
  split; [split; reflexivity |]. split; [| reflexivity].
  apply Spec.walk_found; [vm_compute |]; reflexivity.
Qed.

(** C5 as stated does not hold: on the header whose [fmt ] chunk is cut
    after one byte of payload the parse fails although the magic is
    present and the walk finds a [fmt ] chunk. *)
Lemma truncated_fmt_refutes_error_iff :
  ~ Spec.fails_only_without_magic_or_fmt Scenario.truncated_fmt.
Proof.
  destruct truncated_fmt_fails as (Hmagic & Hwalk & Hparse).
  intros [Hfails _].
  destruct Hfails as [Hno | Hnone]; [exists StructError; exact Hparse | |].
  - exact (Hno Hmagic).
  - pose proof (walk_functional _ _ _ _ Hwalk Hnone). discriminate.
Qed.

(** C5, amended: [parse_wav_header] raises "Not a valid WAV file" exactly
    when the RIFF/WAVE magic is absent; it raises "No fmt chunk found"
    exactly when the magic is present and the chunk walk exhausts the
    input without a [fmt ] chunk; when the walk finds a [fmt ] chunk it
    returns a descriptor exactly when at least 16 bytes of the chunk's
    payload are at hand, and otherwise fails with the error of [struct];
    it either fails or returns a descriptor, never both. *)
Theorem parse_wav_header_outcomes (header : bytes) :
  (Micro.parse_wav_header header = Some (Raise Micro.Not_a_valid_WAV_file)
   <-> ~ Spec.magic header)
  /\ (Micro.parse_wav_header header = Some (Raise Micro.No_fmt_chunk_found)
      <-> Spec.magic header /\ Spec.walk header 12 None)
  /\ (Micro.parse_wav_header header = Some (Raise StructError)
      <-> Spec.magic header
          /\ exists p, Spec.walk header 12 (Some p)
                       /\ len (Spec.payload_at header p) < 16)
  /\ ((exists info, Micro.parse_wav_header header = Some (Ok info))
      <-> Spec.magic header
          /\ exists p, Spec.walk header 12 (Some p)
                       /\ 16 <= len (Spec.payload_at header p))
  /\ (Spec.parse_fails header
      \/ exists info, Micro.parse_wav_header header = Some (Ok info))
  /\ ~ (Spec.parse_fails header
        /\ exists info, Micro.parse_wav_header header = Some (Ok info)).
Proof.
  unfold Spec.parse_fails.
  pose proof (walk_functional header 12) as Hfun.
  assert (Hne : Micro.Not_a_valid_WAV_file <> Micro.No_fmt_chunk_found)
    by discriminate.
  assert (Hne1 : Micro.Not_a_valid_WAV_file <> StructError) by discriminate.
  assert (Hne2 : Micro.No_fmt_chunk_found <> StructError) by discriminate.
  destruct (parse_wav_header_cases header)
    as [[Hm Hr] | [(Hm & Hw & Hr) | [(Hm & p & Hw & Hlen & Hr) | (Hm & p & Hw & Hlen & Hr)]]];
    rewrite Hr;
    (split; [| split; [| split; [| split; [| split]]]]);
    try (split; intros H);
    repeat match goal with
           | H : _ /\ _ |- _ => destruct H
           | H : exists _, _ |- _ => destruct H
           | H1 : Spec.walk header 12 ?f1, H2 : Spec.walk header 12 ?f2 |- _ =>
               pose proof (Hfun _ _ H1 H2); clear H2
           | H : Some _ = Some _ |- _ => injection H as H; try subst
           end;
    try congruence; try tauto; try lia; eauto 6.
  all: intros [[e He] [info Hi]]; congruence.
Qed.

Lemma parse_wav_header_outcomes_witness :
  Spec.magic Scenario.wav
  /\ Spec.walk Scenario.wav 12 (Some 12)
  /\ exists info, Micro.parse_wav_header Scenario.wav = Some (Ok info).
Proof.
  assert (Hm : Spec.magic Scenario.wav) by (split; reflexivity).
  assert (Hw : Spec.walk Scenario.wav 12 (Some 12))
    by (apply Spec.walk_found; [vm_compute |]; reflexivity).
  split; [exact Hm |]. split; [exact Hw |].
  apply (proj1 (proj2 (proj2 (proj2 (parse_wav_header_outcomes Scenario.wav))))).
  split; [exact Hm |]. exists 12. split; [exact Hw |]. vm_compute. discriminate.
Defined.

(* ===================================================================== *)
(** * parse_wav_header: the descriptor *)
(* ===================================================================== *)

Section FmtChunk.

Lemma len_app {A : Type} (x y : list A) : len (x ++ y) = len x + len y.
Proof. unfold len. rewrite length_app. lia. Qed.

Lemma len_nonneg {A : Type} (x : list A) : 0 <= len x.
Proof. unfold len. lia. Qed.

Lemma len_le_split (n : nat) (v : Z) : len (le_split n v) = Z.of_nat n.
Proof. unfold len. rewrite length_le_split. reflexivity. Qed.

(** The piece [mid] of [pre ++ mid ++ post], cut out by its offsets. *)
Lemma slice_middle {A : Type} (pre mid post : list A) (lo hi : Z) :
  lo = len pre -> hi = len pre + len mid ->
  slice (pre ++ mid ++ post) lo hi = mid.
Proof.
  intros -> ->.
  rewrite <- (Z.add_0_r (len pre)) at 1.
  rewrite slice_app_r by lia. apply slice_app_l. reflexivity.
Qed.

Lemma le_combine_le_split_small (n : nat) (v : Z) :
  0 <= v < 2 ^ (Z.of_nat n * 8) -> le_combine (le_split n v) = v.
Proof. intros Hv. rewrite le_combine_split. apply Z.mod_small. exact Hv. Qed.

Lemma len_encode_chunk (c : Spec.chunk) :
  Spec.well_formed c ->
  len (Spec.encode_chunk c) = 8 + len (Spec.payload c).
Proof.
  intros [Hid _]. unfold Spec.encode_chunk.
  rewrite !len_app, len_le_split. unfold len at 1. rewrite Hid. lia.
Qed.

(** The walk steps over unknown chunks, each by its declared length plus
    the 8 bytes of its header, and stops at the [fmt ] chunk behind
    them. *)
Lemma walk_over_unknown (before : list Spec.chunk) :
  forall (pre rest : bytes),
    Forall Spec.unknown before ->
    8 < len rest -> slice rest 0 4 = b "fmt " ->
    Spec.walk (pre ++ flat_map Spec.encode_chunk before ++ rest) (len pre)
              (Some (len pre + len (flat_map Spec.encode_chunk before))).
Proof.
  induction before as [| c before IH]; intros pre rest Hunk Hrest Hfmt.
  - cbn [flat_map app]. change (len (@nil byte)) with 0. rewrite Z.add_0_r.
    apply Spec.walk_found.
    + rewrite len_app. lia.
    + rewrite <- (Z.add_0_r (len pre)) at 1.
      rewrite slice_app_r by lia. exact Hfmt.
  - inversion Hunk as [| ? ? [Hwf Hid] Hunk']; subst.
    pose proof (len_encode_chunk c Hwf) as Hlen.
    pose proof (len_nonneg (Spec.payload c)) as Hpay.
    pose proof (len_nonneg pre) as Hpre.
    pose proof (len_nonneg (flat_map Spec.encode_chunk before)) as Hbefore.
    destruct Hwf as [Hid4 Hsmall].
    cbn [flat_map].
    assert (Hlayout :
              pre ++ (Spec.encode_chunk c ++ flat_map Spec.encode_chunk before) ++ rest
              = pre ++ Spec.chunk_id c
                    ++ le_split 4 (len (Spec.payload c))
                    ++ (Spec.payload c ++ flat_map Spec.encode_chunk before ++ rest)).
    { unfold Spec.encode_chunk. rewrite <- !app_assoc. reflexivity. }
    assert (Hidlen : len (Spec.chunk_id c) = 4) by (unfold len; lia).
    apply Spec.walk_skip.
    + rewrite !len_app. lia.
    + rewrite Hlayout, slice_middle by lia. exact Hid.
    + replace (le_combine _) with (len (Spec.payload c)).
      * specialize (IH (pre ++ Spec.encode_chunk c) rest Hunk' Hrest Hfmt).
        rewrite <- !app_assoc in IH. rewrite !len_app in *.
        replace (len pre + 8 + len (Spec.payload c))
          with (len pre + len (Spec.encode_chunk c)) by lia.
        replace (len pre + (len (Spec.encode_chunk c)
                            + len (flat_map Spec.encode_chunk before)))
          with (len pre + len (Spec.encode_chunk c)
                + len (flat_map Spec.encode_chunk before)) by lia.
        rewrite <- app_assoc. exact IH.
      * rewrite Hlayout, app_assoc.
        rewrite slice_middle by (rewrite ?len_app, ?len_le_split; lia).
        symmetry. apply le_combine_le_split_small. lia.
Qed.

End FmtChunk.

Section FmtDescriptor.

Variables (size : bytes) (before : list Spec.chunk) (declared : Z).
Variables (audio_format channel_count rate bits_per_sample : Z).
Variables (between more : bytes).

Hypothesis size_field : length size = 4%nat.
Hypothesis before_unknown : Forall Spec.unknown before.
Hypothesis declared_range : 16 <= declared < 2 ^ 32.
Hypothesis between_fields : length between = 6%nat.
Hypothesis audio_format_range : 0 <= audio_format < 2 ^ 16.
Hypothesis channel_count_range : 0 <= channel_count < 2 ^ 16.
Hypothesis rate_range : 0 <= rate < 2 ^ 32.
Hypothesis bits_per_sample_range : 0 <= bits_per_sample < 2 ^ 16.

Let fields : bytes :=
  Spec.fmt_fields audio_format channel_count rate bits_per_sample between.
Let fmt_chunk : bytes := b "fmt " ++ le_split 4 declared ++ fields ++ more.
Let header : bytes :=
  Spec.riff size (flat_map Spec.encode_chunk before ++ fmt_chunk).
Let fmt_pos : Z := 12 + len (flat_map Spec.encode_chunk before).

Lemma fmt_fields_length : len fields = 16.
Proof.
  unfold fields, Spec.fmt_fields, len.
  rewrite !length_app, !length_le_split, between_fields. reflexivity.
Qed.

Lemma fmt_header_magic : Spec.magic header.
Proof.
  unfold header, Spec.riff. split.
  - apply slice_app_l. reflexivity.
  - rewrite app_assoc.
    apply slice_middle; rewrite !len_app; unfold len; rewrite size_field;
      reflexivity.
Qed.

Lemma fmt_header_walk : Spec.walk header 12 (Some fmt_pos).
Proof.
  unfold header, Spec.riff, fmt_pos.
  pose proof (walk_over_unknown before (b "RIFF" ++ size ++ b "WAVE") fmt_chunk
                before_unknown) as Hw.
  assert (Hpre : len (b "RIFF" ++ size ++ b "WAVE") = 12).
  { rewrite !len_app. unfold len. rewrite size_field. reflexivity. }
  rewrite Hpre, <- !app_assoc in Hw. apply Hw.
  - unfold fmt_chunk. rewrite !len_app, len_le_split.
    pose proof (len_nonneg more).
    rewrite fmt_fields_length.
    change (len (b "fmt ")) with 4. change (Z.of_nat 4) with 4. lia.
  - unfold fmt_chunk. apply slice_app_l. reflexivity.
Qed.

Lemma fmt_header_split :
  exists front,
    len front = fmt_pos
    /\ header = front ++ b "fmt " ++ le_split 4 declared ++ fields ++ more.
Proof.
  exists (b "RIFF" ++ size ++ b "WAVE" ++ flat_map Spec.encode_chunk before).
  split.
  - unfold fmt_pos. rewrite !len_app.
    change (len (b "RIFF")) with 4. change (len (b "WAVE")) with 4.
    replace (len size) with 4 by (unfold len; lia). lia.
  - unfold header, Spec.riff, fmt_chunk. rewrite <- !app_assoc. reflexivity.
Qed.

Lemma fmt_header_declared : Spec.declared_length header fmt_pos = declared.
Proof.
  destruct fmt_header_split as (front & Hfront & ->).
  unfold Spec.declared_length.
  rewrite (app_assoc front), slice_middle.
  - apply le_combine_le_split_small. lia.
  - rewrite len_app, Hfront. reflexivity.
  - rewrite len_app, len_le_split, Hfront. change (len (b "fmt ")) with 4. lia.
Qed.

Lemma fmt_header_payload :
  exists tail, Spec.payload_at header fmt_pos = fields ++ tail.
Proof.
  unfold Spec.payload_at. rewrite fmt_header_declared.
  destruct fmt_header_split as (front & Hfront & ->).
  pose proof (len_nonneg front) as Hnn.
  replace (front ++ b "fmt " ++ le_split 4 declared ++ fields ++ more)
    with ((front ++ b "fmt " ++ le_split 4 declared) ++ fields ++ more)
    by (rewrite <- !app_assoc; reflexivity).
  assert (Hoff : len (front ++ b "fmt " ++ le_split 4 declared) = fmt_pos + 8).
  { rewrite !len_app, len_le_split, Hfront. change (len (b "fmt ")) with 4. lia. }
  replace (fmt_pos + 8 + declared)
    with (len (front ++ b "fmt " ++ le_split 4 declared) + declared) by lia.
  replace (fmt_pos + 8)
    with (len (front ++ b "fmt " ++ le_split 4 declared) + 0) by lia.
  rewrite slice_app_r by lia.
  unfold slice. cbn [Z.to_nat skipn]. rewrite Z.sub_0_r.
  pose proof fmt_fields_length as Hfields. unfold len in Hfields.
  rewrite firstn_app, (firstn_all2 fields) by lia.
  eauto.
Qed.

Lemma fmt_fields_decode (tail : bytes) :
  le_combine (slice (fields ++ tail) 0 2) = audio_format
  /\ le_combine (slice (fields ++ tail) 2 4) = channel_count
  /\ le_combine (slice (fields ++ tail) 4 8) = rate
  /\ le_combine (slice (fields ++ tail) 14 16) = bits_per_sample.
Proof.
  unfold fields, Spec.fmt_fields.
  assert (H6 : len between = 6) by (unfold len; lia).
  repeat split.
  - rewrite <- !app_assoc, slice_app_l by (rewrite len_le_split; reflexivity).
    apply le_combine_le_split_small. lia.
  - rewrite <- !app_assoc, slice_middle by (rewrite ?len_le_split; reflexivity).
    apply le_combine_le_split_small. lia.
  - rewrite <- !app_assoc, (app_assoc (le_split 2 audio_format)).
    rewrite slice_middle by (rewrite ?len_app, ?len_le_split; reflexivity).
    apply le_combine_le_split_small. lia.
  - replace ((le_split 2 audio_format ++ le_split 2 channel_count
              ++ le_split 4 rate ++ between ++ le_split 2 bits_per_sample) ++ tail)
      with ((le_split 2 audio_format ++ le_split 2 channel_count
             ++ le_split 4 rate ++ between) ++ le_split 2 bits_per_sample ++ tail)
      by (rewrite <- !app_assoc; reflexivity).
    rewrite slice_middle
      by (rewrite ?len_app, ?len_le_split, ?H6; reflexivity).
    apply le_combine_le_split_small. lia.
Qed.

Lemma fmt_header_parse :
  Spec.walk header 12 (Some fmt_pos)
  /\ Micro.parse_wav_header header
     = Some (Ok {| Micro.format := audio_format;
                   Micro.channels := channel_count;
                   Micro.sample_rate := rate;
                   Micro.bits := bits_per_sample |}).
Proof.
  pose proof fmt_header_magic as Hmagic.
  pose proof fmt_header_walk as Hwalk.
  destruct fmt_header_payload as [tail Hpayload].
  pose proof (fmt_fields_decode tail) as (Hf & Hc & Hr & Hb).
  pose proof fmt_fields_length as Hlen. pose proof (len_nonneg tail) as Htail.
  split; [exact Hwalk |].
  destruct (parse_wav_header_cases header)
    as [[Hm _] | [(_ & Hw & _) | [(_ & p & Hw & Hshort & _) | (_ & p & Hw & _ & ->)]]].
  - contradiction.
  - pose proof (walk_functional _ _ _ _ Hwalk Hw). discriminate.
  - pose proof (walk_functional _ _ _ _ Hwalk Hw) as [= <-].
    rewrite Hpayload, len_app in Hshort. lia.
  - pose proof (walk_functional _ _ _ _ Hwalk Hw) as [= <-].
    rewrite Hpayload, Hf, Hc, Hr, Hb. reflexivity.
Qed.

End FmtDescriptor.

(** C4: for every WAV byte sequence made of the RIFF/WAVE file header, any
    number of well-formed chunks that are not [fmt ] (each: a 4-byte id,
    the little-endian 32-bit length of its payload, the payload), and a
    [fmt ] chunk of a declared length of at least 16 whose payload starts
    with the format code at offset 0, the channel count at 2, the sample
    rate at 4 and the bits-per-sample at 14, whatever follows,
    [parse_wav_header] returns the descriptor with exactly these four
    values: the walk skips each chunk before the [fmt ] chunk by its
    declared length plus the 8 bytes of its header and finds the [fmt ]
    chunk at 12 plus the sizes of the chunks before it. *)
Theorem parse_wav_header_reads_fmt
        (size : bytes) (before : list Spec.chunk) (declared : Z)
        (audio_format channel_count rate bits_per_sample : Z)
        (between more : bytes) :
  length size = 4%nat ->
  Forall Spec.unknown before ->
  16 <= declared < 2 ^ 32 ->
  length between = 6%nat ->
  0 <= audio_format < 2 ^ 16 ->
  0 <= channel_count < 2 ^ 16 ->
  0 <= rate < 2 ^ 32 ->
  0 <= bits_per_sample < 2 ^ 16 ->
  let header :=
    Spec.riff size
      (flat_map Spec.encode_chunk before
       ++ b "fmt " ++ le_split 4 declared
       ++ Spec.fmt_fields audio_format channel_count rate bits_per_sample between
       ++ more) in
  Spec.walk header 12 (Some (12 + len (flat_map Spec.encode_chunk before)))
  /\ Micro.parse_wav_header header
     = Some (Ok {| Micro.format := audio_format;
                   Micro.channels := channel_count;
                   Micro.sample_rate := rate;
                   Micro.bits := bits_per_sample |}).
Proof. intros. apply fmt_header_parse; assumption. Qed.

Lemma parse_wav_header_reads_fmt_witness :
  let header :=
    Spec.riff [Byte.x2c; Byte.x00; Byte.x00; Byte.x00]
      (flat_map Spec.encode_chunk [Scenario.list_chunk]
       ++ b "fmt " ++ le_split 4 18
       ++ Spec.fmt_fields 1 2 44100 16
            [Byte.x10; Byte.xb1; Byte.x02; Byte.x00; Byte.x04; Byte.x00]
       ++ [Byte.x00; Byte.x00] ++ b "data") in
  Spec.walk header 12 (Some (12 + len (flat_map Spec.encode_chunk [Scenario.list_chunk])))
  /\ Micro.parse_wav_header header
     = Some (Ok {| Micro.format := 1; Micro.channels := 2;
                   Micro.sample_rate := 44100; Micro.bits := 16 |}).
Proof.
  apply (parse_wav_header_reads_fmt
           [Byte.x2c; Byte.x00; Byte.x00; Byte.x00] [Scenario.list_chunk] 18
           1 2 44100 16
           [Byte.x10; Byte.xb1; Byte.x02; Byte.x00; Byte.x04; Byte.x00]
           ([Byte.x00; Byte.x00] ++ b "data")); try reflexivity; try lia.
  constructor; [| constructor].
  split; [split; [reflexivity | vm_compute; reflexivity] | discriminate].
Defined.

(* ===================================================================== *)
(** * send_samples: framing of the byte stream *)
(* ===================================================================== *)

Section SampleAssembler.

Import Micro.

(** Induction over a byte string four bytes at a time. *)
Lemma bytes_ind4 (P : bytes -> Prop) :
  (forall data, (length data < 4)%nat -> P data) ->
  (forall l0 l1 r0 r1 rest, P rest -> P (l0 :: l1 :: r0 :: r1 :: rest)) ->
  forall data, P data.
Proof.
  intros Hshort Hgroup data.
  assert (H : forall n data, (length data <= n)%nat -> P data).
  { induction n as [| n IH]; intros d Hd.
    - apply Hshort. lia.
    - destruct d as [| l0 [| l1 [| r0 [| r1 rest]]]];
        try (apply Hshort; cbn; lia).
      apply Hgroup, IH. cbn in Hd. lia. }
  apply (H (length data)). lia.
Qed.

Lemma frames_of_short (data : bytes) :
  (length data < 4)%nat -> Spec.frames_of data = [].
Proof.
  destruct data as [| l0 [| l1 [| r0 [| r1 rest]]]]; cbn; intros; trivial; lia.
Qed.

Lemma word_of_pack_sample (left right : Z) :
  pack_sample left right = Spec.word_of (left, right).
Proof. apply pack_sample_arith. Qed.

(** The loop from iteration [k] on, with [4 * k] bytes behind it. *)
Lemma send_samples_from (rest : bytes) :
  forall (pre : bytes) (k : nat) (self : I2SSlaveTX),
    length pre = (4 * k)%nat ->
    fold_left (send_samples_body (pre ++ rest))
              (map (fun j => 0 + 4 * Z.of_nat j)
                   (seq k (Z.to_nat ((len rest + 3) / 4))))
              (Ok self)
    = Ok {| sm_put := sm_put self ++ map Spec.word_of (Spec.frames_of rest) |}.
Proof.
  induction rest as [data Hshort | l0 l1 r0 r1 rest IH] using bytes_ind4;
    intros pre k self Hpre.
  - rewrite frames_of_short, app_nil_r by assumption.
    assert (Hsame : Ok self = Ok {| sm_put := sm_put self |})
      by (destruct self; reflexivity).
    destruct data as [| c data].
    + cbn. exact Hsame.
    + replace (Z.to_nat ((len (c :: data) + 3) / 4)) with 1%nat.
      * cbn [seq map fold_left]. unfold send_samples_body at 1. cbn [bind].
        destruct (Z.ltb_spec (0 + 4 * Z.of_nat k + 3) (len (pre ++ c :: data)))
          as [Hlt | _]; [| exact Hsame].
        rewrite len_app in Hlt. unfold len in Hlt. lia.
      * unfold len. cbn [length] in *.
        assert (H1 : (Z.of_nat (S (length data)) + 3) / 4 = 1).
        { symmetry. apply (Z.div_unique _ 4 1 (Z.of_nat (length data))); lia. }
        rewrite H1. reflexivity.
  - replace (Z.to_nat ((len (l0 :: l1 :: r0 :: r1 :: rest) + 3) / 4))
      with (S (Z.to_nat ((len rest + 3) / 4))).
    + cbn [seq map fold_left]. unfold send_samples_body at 2. cbn [bind].
      destruct (Z.ltb_spec (0 + 4 * Z.of_nat k + 3)
                           (len (pre ++ l0 :: l1 :: r0 :: r1 :: rest)))
        as [_ | Hge].
      2: { rewrite len_app in Hge. unfold len in Hge. cbn [length] in Hge. lia. }
      assert (Hoff : 0 + 4 * Z.of_nat k = len pre) by (unfold len; lia).
      rewrite Hoff.
      rewrite <- (Z.add_0_r (len pre)) at 1.
      rewrite !slice_app_r by lia.
      change (slice (l0 :: l1 :: r0 :: r1 :: rest) 0 2) with [l0; l1].
      change (slice (l0 :: l1 :: r0 :: r1 :: rest) 2 4) with [r0; r1].
      unfold unpack_h. rewrite !unpack_exact by reflexivity. cbn [bind].
      change (8 * Z.of_nat 2) with 16.
      replace (pre ++ l0 :: l1 :: r0 :: r1 :: rest)
        with ((pre ++ [l0; l1; r0; r1]) ++ rest)
        by (rewrite <- app_assoc; reflexivity).
      rewrite (IH (pre ++ [l0; l1; r0; r1]) (S k))
        by (rewrite length_app; cbn [length]; lia).
      unfold send_sample, put. cbn [sm_put Spec.frames_of map].
      rewrite word_of_pack_sample, <- app_assoc. reflexivity.
    + unfold len. cbn [length].
      replace (Z.of_nat (S (S (S (S (length rest))))) + 3)
        with (1 * 4 + (Z.of_nat (length rest) + 3)) by lia.
      rewrite Z.div_add_l by lia.
      rewrite Z2Nat.inj_add by (try apply Z.div_pos; lia). reflexivity.
Qed.

(** One buffer: its own 4-byte groups are sent, and what is left over at
    its end is not. *)
Lemma send_samples_buffer (self : I2SSlaveTX) (samples : bytes) :
  send_samples self (Buffer samples)
  = Ok {| sm_put := sm_put self ++ map Spec.word_of (Spec.frames_of samples) |}.
Proof.
  unfold send_samples, range.
  replace (len samples - 0 + 4 - 1) with (len samples + 3) by lia.
  apply (send_samples_from samples [] 0 self). reflexivity.
Qed.

Lemma stream_loop_frames (reads : list bytes) :
  forall i2s : I2SSlaveTX,
    Forall (fun data => data <> []) reads ->
    stream_loop i2s reads
    = Ok {| sm_put := sm_put i2s
                      ++ flat_map (fun data => map Spec.word_of (Spec.frames_of data))
                                  reads |}.
Proof.
  induction reads as [| data reads IH]; intros i2s Hne.
  - cbn. rewrite app_nil_r. destruct i2s; reflexivity.
  - inversion Hne as [| ? ? Hdata Hreads]; subst.
    cbn [stream_loop flat_map].
    destruct data as [| c data]; [congruence |]. cbn [length Nat.eqb].
    rewrite send_samples_buffer. cbn [bind].
    rewrite IH by assumption. cbn [sm_put].
    rewrite <- app_assoc. reflexivity.
Qed.

Lemma frames_of_app (x y : bytes) :
  len x mod 4 = 0 ->
  Spec.frames_of (x ++ y) = Spec.frames_of x ++ Spec.frames_of y.
Proof.
  induction x as [data Hshort | l0 l1 r0 r1 rest IH] using bytes_ind4.
  - intros Hmod. destruct data as [| c data]; [reflexivity |].
    unfold len in Hmod. rewrite Z.mod_small in Hmod; cbn [length] in *; lia.
  - intros Hmod. cbn [app Spec.frames_of]. rewrite IH; [reflexivity |].
    unfold len in *. cbn [length] in Hmod.
    replace (Z.of_nat (S (S (S (S (length rest))))))
      with (Z.of_nat (length rest) + 1 * 4) in Hmod by lia.
    rewrite Z.mod_add in Hmod by lia. exact Hmod.
Qed.

Lemma frames_of_aligned_reads (reads : list bytes) :
  Forall (fun data => len data mod 4 = 0) (removelast reads) ->
  flat_map (fun data => map Spec.word_of (Spec.frames_of data)) reads
  = map Spec.word_of (Spec.frames_of (concat reads)).
Proof.
  induction reads as [| data reads IH]; [reflexivity |].
  destruct reads as [| data' reads].
  - intros _. cbn. rewrite !app_nil_r. reflexivity.
  - intros Haligned.
    change (removelast (data :: data' :: reads))
      with (data :: removelast (data' :: reads)) in Haligned.
    inversion Haligned as [| ? ? Hdata Hrest]; subst.
    specialize (IH Hrest).
    change (flat_map ?f (data :: ?l)) with (f data ++ flat_map f l).
    change (concat (data :: ?l)) with (data ++ concat l).
    rewrite IH.
    rewrite frames_of_app, map_app by assumption. reflexivity.
Qed.

End SampleAssembler.

(** C1 as stated does not hold: one frame arriving in two reads of two
    bytes each is not sent, although the concatenation of the reads is a
    whole frame. *)
Lemma split_frame_is_dropped :
  Forall (fun data => data <> []) Scenario.split_frame
  /\ Micro.stream_loop Scenario.fresh Scenario.split_frame = Ok Scenario.fresh
  /\ Spec.frames_of (concat Scenario.split_frame) = [(1, 2)]
  /\ ~ Spec.assembled_as_one_stream Scenario.split_frame.
Proof.
  split; [repeat constructor; discriminate |].
  split; [reflexivity |]. split; [reflexivity |].
  unfold Spec.assembled_as_one_stream. vm_compute. discriminate.
Qed.

(** C1, amended: for every sequence of non-empty byte chunks fed to
    [send_samples], the frames handed to the state machine are the frames
    of each chunk taken on its own (consecutive 4-byte groups, two bytes
    little-endian signed left, then two bytes little-endian signed right,
    a final incomplete group of the chunk truncated), chunk after chunk;
    they are the frames of the concatenation of the chunks whenever every
    chunk but the last has a length that is a multiple of 4. Bytes left
    over at a chunk's end are not carried into the next chunk. *)
Theorem stream_loop_frames_per_read (i2s : Micro.I2SSlaveTX) (reads : list bytes) :
  Forall (fun data => data <> []) reads ->
  Micro.stream_loop i2s reads
  = Ok {| Micro.sm_put :=
            Micro.sm_put i2s
            ++ flat_map (fun data => map Spec.word_of (Spec.frames_of data)) reads |}
  /\ (Forall (fun data => len data mod 4 = 0) (removelast reads) ->
      Micro.stream_loop i2s reads
      = Ok {| Micro.sm_put :=
                Micro.sm_put i2s
                ++ map Spec.word_of (Spec.frames_of (concat reads)) |}).
Proof.
  intros Hne. split.
  - apply stream_loop_frames. exact Hne.
  - intros Haligned. rewrite stream_loop_frames by exact Hne.
    rewrite frames_of_aligned_reads by exact Haligned. reflexivity.
Qed.

Lemma stream_loop_frames_per_read_witness :
  Micro.stream_loop Scenario.fresh Scenario.aligned_reads
  = Ok {| Micro.sm_put :=
            [] ++ map Spec.word_of (Spec.frames_of (concat Scenario.aligned_reads)) |}.
Proof.
  apply (stream_loop_frames_per_read Scenario.fresh Scenario.aligned_reads).
  - repeat constructor; discriminate.
  - repeat constructor.
Defined.

(* ===================================================================== *)
(** * convert_to_stereo_16bit: the sample conversions *)
(* ===================================================================== *)

Section BitDepth.

Import Ps.

Lemma from_8bit_range (s : Z) :
  0 <= s <= 255 -> - 32768 <= from_8bit s <= 32512.
Proof. unfold from_8bit. lia. Qed.

Lemma from_24bit_range (s : Z) :
  - 2 ^ 23 <= s < 2 ^ 23 -> - 32768 <= from_24bit s <= 32767.
Proof.
  unfold from_24bit. intros Hs.
  pose proof (Z.div_le_mono (- 2 ^ 23) s 256 ltac:(lia) ltac:(lia)) as Hlo.
  pose proof (Z.div_lt_upper_bound s 256 32768 ltac:(lia) ltac:(lia)) as Hhi.
  change (- 2 ^ 23 / 256) with (- 32768) in Hlo. lia.
Qed.

Lemma from_32bit_range (s : Z) :
  - 2 ^ 31 <= s < 2 ^ 31 -> - 32768 <= from_32bit s <= 32767.
Proof.
  unfold from_32bit. intros Hs.
  pose proof (Z.div_le_mono (- 2 ^ 31) s 65536 ltac:(lia) ltac:(lia)) as Hlo.
  pose proof (Z.div_lt_upper_bound s 65536 32768 ltac:(lia) ltac:(lia)) as Hhi.
  change (- 2 ^ 31 / 65536) with (- 32768) in Hlo. lia.
Qed.

Lemma to_signed_range (bits u : Z) :
  0 < bits -> 0 <= u < 2 ^ bits ->
  - 2 ^ (bits - 1) <= to_signed bits u < 2 ^ (bits - 1).
Proof.
  intros Hbits Hu. unfold to_signed.
  assert (Hpow : 2 ^ bits = 2 * 2 ^ (bits - 1)).
  { rewrite <- Z.pow_succ_r by lia. f_equal. lia. }
  destruct (Z.ltb_spec u (2 ^ (bits - 1))); lia.
Qed.

Lemma int_from_bytes_signed_range (buf : bytes) :
  (length buf <= 3)%nat ->
  - 2 ^ 23 <= int_from_bytes_signed buf < 2 ^ 23.
Proof.
  intros Hlen. unfold int_from_bytes_signed.
  pose proof (le_combine_bound buf) as Hb.
  destruct buf as [| c0 [| c1 [| c2 [| c3 buf]]]];
    [| | | | cbn [length] in Hlen; lia];
    unfold len in *; cbn [length] in *;
    match goal with
    | |- context [Z.of_nat ?n] =>
        let v := eval compute in (Z.of_nat n) in
        change (Z.of_nat n) with v in *
    end;
    match goal with
    | |- context [if ?c then _ else _] => destruct c eqn:Hc
    end;
    rewrite ?andb_true_iff, ?andb_false_iff, ?Z.ltb_lt, ?Z.ltb_ge,
      ?Z.leb_le, ?Z.leb_gt in Hc;
    cbn in Hb, Hc |- *; lia.
Qed.

Lemma pack_h_ok (v : Z) : Spec.int16 v -> pack 2 true v = Ok (le_split 2 v).
Proof.
  unfold Spec.int16, pack. intros Hv. cbv zeta.
  change (8 * Z.of_nat 2 - 1) with 15.
  destruct (Z.leb_spec (- 2 ^ 15) v); [| lia].
  destruct (Z.ltb_spec v (2 ^ 15)); [| lia]. reflexivity.
Qed.

Lemma pack_list_h_ok (vs : list Z) :
  Forall Spec.int16 vs ->
  exists out, pack_list 2 true vs = Ok out /\ len out = 2 * len vs.
Proof.
  induction 1 as [| v vs Hv _ [out [IH Hlen]]].
  - exists []. split; reflexivity.
  - exists (le_split 2 v ++ out). cbn [pack_list].
    rewrite pack_h_ok, IH by assumption. cbn [bind].
    split; [reflexivity |].
    rewrite len_app, len_le_split, Hlen. unfold len. cbn [length]. lia.
Qed.

Lemma unpack_fields_signed_range (n count : nat) :
  (0 < n)%nat ->
  forall buf : bytes,
    Forall (fun v => - 2 ^ (8 * Z.of_nat n - 1) <= v < 2 ^ (8 * Z.of_nat n - 1))
           (unpack_fields n true count buf).
Proof.
  intros Hn. induction count as [| count IH]; intros buf; cbn [unpack_fields];
    constructor; [| apply IH].
  apply to_signed_range; [lia |].
  pose proof (le_combine_bound (firstn n buf)) as Hb.
  rewrite length_firstn in Hb.
  assert (Hmono : 2 ^ (8 * Z.of_nat (Nat.min n (length buf))) <= 2 ^ (8 * Z.of_nat n))
    by (apply Z.pow_le_mono_r; lia).
  lia.
Qed.

Lemma length_unpack_fields (n count : nat) (signed : bool) :
  forall buf : bytes, length (unpack_fields n signed count buf) = count.
Proof.
  induction count as [| count IH]; intros buf; cbn [unpack_fields length];
    [| rewrite IH]; reflexivity.
Qed.

Lemma len_map {A B : Type} (f : A -> B) (l : list A) : len (map f l) = len l.
Proof. unfold len. rewrite length_map. reflexivity. Qed.

Lemma len_range (stop step : Z) :
  0 <= stop -> 0 < step -> len (range 0 stop step) = (stop + step - 1) / step.
Proof.
  intros Hstop Hstep. unfold range, len.
  rewrite length_map, length_seq, Z.sub_0_r, Z2Nat.id; [reflexivity |].
  apply Z.div_pos; lia.
Qed.

Lemma to_16bit_8 (frames : bytes) :
  exists out, to_16bit 1 frames = Ok out /\ len out = 2 * len frames.
Proof.
  unfold to_16bit. cbn [Z.eqb Pos.eqb].
  destruct (pack_list_h_ok (map from_8bit (map byte.unsigned frames)))
    as (out & Hout & Hlen).
  - apply Forall_forall. intros v Hv.
    apply in_map_iff in Hv as (s & <- & Hs).
    apply in_map_iff in Hs as (c & <- & _).
    pose proof (byte.unsigned_range c).
    pose proof (from_8bit_range (byte.unsigned c) ltac:(lia)).
    unfold Spec.int16. lia.
  - exists out. rewrite !len_map in Hlen. auto.
Qed.

Lemma to_16bit_24 (frames : bytes) :
  exists out, to_16bit 3 frames = Ok out /\ len out = 2 * ((len frames + 2) / 3).
Proof.
  unfold to_16bit. cbn [Z.eqb Pos.eqb].
  match goal with
  | |- context [pack_list 2 true ?vs] =>
      destruct (pack_list_h_ok vs) as (out & Hout & Hlen)
  end.
  - apply Forall_forall. intros v Hv.
    apply in_map_iff in Hv as (s & <- & Hs).
    apply in_map_iff in Hs as (i & <- & Hi).
    apply in_map_iff in Hi as (k & <- & _).
    pose proof (slice_length frames (0 + 3 * Z.of_nat k) (0 + 3 * Z.of_nat k + 3)
                  ltac:(lia)) as Hsl.
    pose proof (int_from_bytes_signed_range
                  (slice frames (0 + 3 * Z.of_nat k) (0 + 3 * Z.of_nat k + 3))
                  ltac:(unfold len in Hsl; lia)) as Hr.
    pose proof (from_24bit_range _ Hr). unfold Spec.int16. lia.
  - exists out. split; [exact Hout |].
    rewrite Hlen, !len_map, len_range by (try apply len_nonneg; lia).
    f_equal. f_equal. lia.
Qed.

Lemma to_16bit_32_repack (frames : bytes) (samples_32 : list Z) :
  unpack_list 4 true (len frames / 4) frames = Ok samples_32 ->
  exists out,
    pack_list 2 true (map from_32bit samples_32) = Ok out
    /\ to_16bit 4 frames = Ok out
    /\ len out = 2 * (len frames / 4).
Proof.
  intros Hunpack. unfold to_16bit. cbn [Z.eqb Pos.eqb]. rewrite Hunpack.
  cbn [bind]. unfold unpack_list in Hunpack.
  destruct (len frames =? len frames / 4 * Z.of_nat 4); [| discriminate].
  injection Hunpack as <-.
  match goal with
  | |- context [pack_list 2 true ?vs] =>
      destruct (pack_list_h_ok vs) as (out & Hout & Hlen)
  end.
  - apply Forall_forall. intros v Hv.
    apply in_map_iff in Hv as (s & <- & Hs).
    pose proof (unpack_fields_signed_range 4 (Z.to_nat (len frames / 4))
                  ltac:(lia) frames) as Hall.
    rewrite Forall_forall in Hall. specialize (Hall s Hs).
    change (8 * Z.of_nat 4 - 1) with 31 in Hall.
    pose proof (from_32bit_range s Hall). unfold Spec.int16. lia.
  - exists out. rewrite Hout. repeat split.
    rewrite Hlen, len_map. unfold len at 1.
    rewrite length_unpack_fields, Z2Nat.id; [reflexivity |].
    apply Z.div_pos; [apply len_nonneg | lia].
Qed.

Lemma to_stereo_repack (frames : bytes) (samples : list Z) :
  unpack_list 2 true (len frames / 2) frames = Ok samples ->
  exists out,
    pack_list 2 true (flat_map (fun s => [s; s]) samples) = Ok out
    /\ to_stereo 1 frames = Ok (out, 2)
    /\ len out = 4 * (len frames / 2).
Proof.
  intros Hunpack. unfold to_stereo. cbn [Z.eqb Pos.eqb]. rewrite Hunpack.
  cbn [bind]. unfold unpack_list in Hunpack.
  destruct (len frames =? len frames / 2 * Z.of_nat 2); [| discriminate].
  injection Hunpack as <-.
  match goal with
  | |- context [pack_list 2 true ?vs] =>
      destruct (pack_list_h_ok vs) as (out & Hout & Hlen)
  end.
  - apply Forall_forall. intros v Hv.
    apply in_flat_map in Hv as (s & Hs & Hv).
    assert (v = s) as -> by (cbn in Hv; intuition congruence).
    pose proof (unpack_fields_signed_range 2 (Z.to_nat (len frames / 2))
                  ltac:(lia) frames) as Hall.
    rewrite Forall_forall in Hall. specialize (Hall s Hs).
    change (8 * Z.of_nat 2 - 1) with 15 in Hall. exact Hall.
  - exists out. rewrite Hout. cbn [bind]. repeat split.
    rewrite Hlen. unfold len at 1.
    rewrite (flat_map_constant_length (c := 2%nat)) by (intros; reflexivity).
    rewrite length_unpack_fields, Nat2Z.inj_mul, Z2Nat.id; [lia |].
    apply Z.div_pos; [apply len_nonneg | lia].
Qed.

End BitDepth.

(** C10: the bit-depth conversion of [convert_to_stereo_16bit] never
    leaves the signed 16-bit range: an 8-bit unsigned sample [s] becomes
    [(s - 128) * 256] in [[-32768, 32512]], a 24-bit signed sample
    [s // 256] and a 32-bit signed sample [s // 65536], both in
    [[-32768, 32767]]; so packing the converted samples as 16-bit values
    succeeds for every input of 8-bit and 24-bit data and for every
    32-bit data that [struct.unpack] accepts, and so does the repacking of
    the duplicated samples of a mono input. *)
Theorem to_16bit_stays_in_range :
  (forall s, 0 <= s <= 255 ->
             Ps.from_8bit s = (s - 128) * 256 /\ - 32768 <= Ps.from_8bit s <= 32512)
  /\ (forall s, - 2 ^ 23 <= s < 2 ^ 23 ->
                Ps.from_24bit s = s / 256 /\ - 32768 <= Ps.from_24bit s <= 32767)
  /\ (forall s, - 2 ^ 31 <= s < 2 ^ 31 ->
                Ps.from_32bit s = s / 65536 /\ - 32768 <= Ps.from_32bit s <= 32767)
  /\ (forall frames, exists out, Ps.to_16bit 1 frames = Ok out)
  /\ (forall frames, exists out, Ps.to_16bit 3 frames = Ok out)
  /\ (forall frames samples_32,
         unpack_list 4 true (len frames / 4) frames = Ok samples_32 ->
         exists out, pack_list 2 true (map Ps.from_32bit samples_32) = Ok out
                     /\ Ps.to_16bit 4 frames = Ok out)
  /\ (forall frames samples,
         unpack_list 2 true (len frames / 2) frames = Ok samples ->
         exists out, pack_list 2 true (flat_map (fun s => [s; s]) samples) = Ok out
                     /\ Ps.to_stereo 1 frames = Ok (out, 2)).
Proof.
  repeat apply conj.
  - intros s Hs. split; [reflexivity | apply from_8bit_range; exact Hs].
  - intros s Hs. split; [reflexivity | apply from_24bit_range; exact Hs].
  - intros s Hs. split; [reflexivity | apply from_32bit_range; exact Hs].
  - intros frames. destruct (to_16bit_8 frames) as (out & Hout & _). eauto.
  - intros frames. destruct (to_16bit_24 frames) as (out & Hout & _). eauto.
  - intros frames samples_32 Hunpack.
    destruct (to_16bit_32_repack frames samples_32 Hunpack) as (out & H1 & H2 & _).
    eauto.
  - intros frames samples Hunpack.
    destruct (to_stereo_repack frames samples Hunpack) as (out & H1 & H2 & _).
    eauto.
Qed.

Lemma to_16bit_stays_in_range_witness :
  (Ps.from_8bit 255 = (255 - 128) * 256 /\ - 32768 <= Ps.from_8bit 255 <= 32512)
  /\ (Ps.from_24bit (- 2 ^ 23) = - 2 ^ 23 / 256
      /\ - 32768 <= Ps.from_24bit (- 2 ^ 23) <= 32767)
  /\ (Ps.from_32bit (2 ^ 31 - 1) = (2 ^ 31 - 1) / 65536
      /\ - 32768 <= Ps.from_32bit (2 ^ 31 - 1) <= 32767)
  /\ (exists out,
         pack_list 2 true (map Ps.from_32bit [- 2147483648; 2147483647]) = Ok out
         /\ Ps.to_16bit 4 (Ps.readframes Scenario.wide_wave) = Ok out).
Proof.
  destruct to_16bit_stays_in_range as (H8 & H24 & H32 & _ & _ & Hrepack & _).
  split; [apply H8; lia |]. split; [apply H24; lia |]. split; [apply H32; lia |].
  apply (Hrepack (Ps.readframes Scenario.wide_wave)). reflexivity.
Defined.

(* ===================================================================== *)
(** * convert_to_stereo_16bit, then parse_wav_header *)
(* ===================================================================== *)

Section Normalization.

Import Ps.

Lemma pack_unsigned_ok (n : nat) (v : Z) :
  0 <= v < 2 ^ (8 * Z.of_nat n) -> pack n false v = Ok (le_split n v).
Proof.
  intros Hv. unfold pack. cbv zeta.
  destruct (Z.leb_spec 0 v); [| lia].
  destruct (Z.ltb_spec v (2 ^ (8 * Z.of_nat n))); [| lia]. reflexivity.
Qed.

Lemma unpack_list_exact (n : nat) (signed : bool) (count : Z) (buf : bytes) :
  len buf = count * Z.of_nat n ->
  unpack_list n signed count buf
  = Ok (unpack_fields n signed (Z.to_nat count) buf).
Proof.
  intros H. unfold unpack_list. rewrite H, Z.eqb_refl. reflexivity.
Qed.

(** The two conversion stages on a readable input: four bytes per frame
    come out. *)
Lemma convert_frames (wf : Wave_read) :
  Spec.readable wf ->
  exists frames16 frames,
    to_16bit (getsampwidth wf) (readframes wf) = Ok frames16
    /\ to_stereo (getnchannels wf) frames16 = Ok (frames, 2)
    /\ len frames = 4 * getnframes wf.
Proof.
  intros (Hch & Hsw & _ & Hn & Hlen).
  set (M := getnframes wf * getnchannels wf).
  assert (H16 : exists frames16,
             to_16bit (getsampwidth wf) (readframes wf) = Ok frames16
             /\ len frames16 = 2 * M).
  { destruct Hsw as [Hsw | [Hsw | [Hsw | Hsw]]]; rewrite Hsw in *.
    - destruct (to_16bit_8 (readframes wf)) as (out & Hout & Hl).
      exists out. split; [exact Hout |]. subst M. lia.
    - exists (readframes wf). split; [reflexivity |]. subst M. lia.
    - destruct (to_16bit_24 (readframes wf)) as (out & Hout & Hl).
      exists out. split; [exact Hout |]. rewrite Hl, Hlen.
      fold M. replace (M * 3 + 2) with (2 + M * 3) by lia.
      rewrite Z.div_add by lia. change (2 / 3) with 0. lia.
    - assert (Hdiv : len (readframes wf) / 4 = M).
      { rewrite Hlen. fold M. apply Z.div_mul. lia. }
      destruct (to_16bit_32_repack (readframes wf)
                  (unpack_fields 4 true (Z.to_nat M) (readframes wf)))
        as (out & _ & Hout & Hl).
      + rewrite Hdiv. apply unpack_list_exact. rewrite Hlen. fold M.
        reflexivity.
      + exists out. split; [exact Hout |]. lia. }
  destruct H16 as (frames16 & H16 & Hl16).
  exists frames16.
  destruct Hch as [Hch | Hch]; rewrite Hch in *.
  - assert (Hdiv : len frames16 / 2 = M).
    { rewrite Hl16, Z.mul_comm. apply Z.div_mul. lia. }
    destruct (to_stereo_repack frames16
                (unpack_fields 2 true (Z.to_nat M) frames16))
      as (out & _ & Hout & Hl).
    + rewrite Hdiv. apply unpack_list_exact. rewrite Hl16.
      change (Z.of_nat 2) with 2. lia.
    + exists out. split; [exact H16 |]. split; [exact Hout |]. subst M. lia.
  - exists frames16. split; [exact H16 |]. split; [reflexivity |]. subst M. lia.
Qed.

(** With a byte rate and a RIFF size that fit their 32-bit fields the
    header is written around the converted frames. *)
Lemma convert_writes_header (wf : Wave_read) (frames16 frames : bytes) :
  to_16bit (getsampwidth wf) (readframes wf) = Ok frames16 ->
  to_stereo (getnchannels wf) frames16 = Ok (frames, 2) ->
  0 <= getframerate wf -> getframerate wf * 4 < 2 ^ 32 ->
  36 + len frames < 2 ^ 32 ->
  convert_to_stereo_16bit wf = Ok (Spec.stereo16_wav (getframerate wf) frames).
Proof.
  intros H16 Hst Hrate Hbyte Hsize. unfold convert_to_stereo_16bit.
  pose proof (len_nonneg frames) as Hnn.
  rewrite H16. cbn [bind]. rewrite Hst. cbn [bind fst snd].
  unfold pack_I, pack_H.
  rewrite !pack_unsigned_ok
    by (change (8 * Z.of_nat 4) with 32; change (8 * Z.of_nat 2) with 16; lia).
  cbn [bind]. reflexivity.
Qed.

Lemma stereo16_wav_layout (framerate : Z) (frames : bytes) :
  Spec.stereo16_wav framerate frames
  = Spec.riff (le_split 4 (36 + len frames))
      (flat_map Spec.encode_chunk []
       ++ b "fmt " ++ le_split 4 16
       ++ Spec.fmt_fields 1 2 framerate 16
            (le_split 4 (framerate * 2 * 2) ++ le_split 2 (2 * 2))
       ++ b "data" ++ le_split 4 (len frames) ++ frames).
Proof.
  unfold Spec.stereo16_wav, Spec.riff, Spec.fmt_fields.
  change (flat_map Spec.encode_chunk []) with (@nil byte).
  cbn [app]. rewrite <- !app_assoc. reflexivity.
Qed.

Lemma stereo16_wav_parses (framerate : Z) (frames : bytes) :
  0 <= framerate < 2 ^ 32 ->
  Micro.parse_wav_header (Spec.stereo16_wav framerate frames)
  = Some (Ok {| Micro.format := 1; Micro.channels := 2;
                Micro.sample_rate := framerate; Micro.bits := 16 |}).
Proof.
  intros Hrate. rewrite stereo16_wav_layout.
  apply fmt_header_parse;
    rewrite ?length_app, ?length_le_split; try reflexivity; try lia.
  constructor.
Qed.

Lemma stereo16_wav_data_length (framerate : Z) (frames : bytes) :
  len frames < 2 ^ 32 ->
  Spec.data_length (Spec.stereo16_wav framerate frames) = len frames.
Proof.
  intros Hlen. unfold Spec.data_length, Spec.stereo16_wav.
  pose proof (len_nonneg frames).
  repeat rewrite app_assoc. rewrite <- (app_assoc _ (le_split 4 (len frames))).
  rewrite slice_middle.
  - apply le_combine_le_split_small. lia.
  - rewrite !len_app, !len_le_split. reflexivity.
  - rewrite !len_app, !len_le_split. reflexivity.
Qed.

End Normalization.

(** C8 as stated does not hold: a readable 16-bit stereo input whose
    sample rate is 2^30 Hz is not converted, because its byte rate does
    not fit the 32-bit field of the header. *)
Lemma fast_wave_is_not_converted :
  Spec.readable Scenario.fast_wave
  /\ Ps.convert_to_stereo_16bit Scenario.fast_wave = Raise StructError
  /\ ~ Spec.round_trips Scenario.fast_wave.
Proof.
  split.
  { unfold Spec.readable. cbn. repeat split; auto; lia. }
  split; [reflexivity |].
  intros (out & Hout & _).
  assert (H : Ps.convert_to_stereo_16bit Scenario.fast_wave = Raise StructError)
    by reflexivity.
  congruence.
Qed.

(** C8, amended: for every readable WAV input of bit depth 8, 16, 24 or 32
    and of one or two channels whose sample rate is below 2^30 Hz and
    whose converted data together with 36 bytes of header stays below
    2^32 bytes, [convert_to_stereo_16bit] succeeds, [parse_wav_header]
    applied to its output returns exactly {format 1 (PCM), 2 channels,
    the input's sample rate, 16 bits}, and the length declared by the
    output's [data] chunk is four times the number of input frames, a
    multiple of 4. *)
Theorem convert_then_parse (wf : Ps.Wave_read) :
  Spec.readable wf ->
  Ps.getframerate wf < 2 ^ 30 ->
  36 + 4 * Ps.getnframes wf < 2 ^ 32 ->
  Spec.round_trips wf
  /\ exists out,
      Ps.convert_to_stereo_16bit wf = Ok out
      /\ Spec.data_length out = 4 * Ps.getnframes wf
      /\ len out = 44 + Spec.data_length out.
Proof.
  intros Hreadable Hrate Hsize.
  destruct (convert_frames wf Hreadable) as (frames16 & frames & H16 & Hst & Hlen).
  destruct Hreadable as (_ & _ & Hrate0 & Hn & _).
  pose proof (convert_writes_header wf frames16 frames H16 Hst
                ltac:(lia) ltac:(lia) ltac:(lia)) as Hout.
  pose proof (stereo16_wav_data_length (Ps.getframerate wf) frames ltac:(lia)) as Hdata.
  split.
  - exists (Spec.stereo16_wav (Ps.getframerate wf) frames).
    split; [exact Hout |]. split.
    + apply stereo16_wav_parses. lia.
    + rewrite Hdata, Hlen, Z.mul_comm. apply Z.mod_mul. lia.
  - exists (Spec.stereo16_wav (Ps.getframerate wf) frames).
    split; [exact Hout |]. split; [lia |].
    rewrite Hdata. unfold Spec.stereo16_wav.
    rewrite !len_app, !len_le_split. change (len (b "RIFF")) with 4.
    change (len (b "WAVE")) with 4. change (len (b "fmt ")) with 4.
    change (len (b "data")) with 4. lia.
Qed.

Lemma convert_then_parse_witness :
  Spec.round_trips Scenario.small_wave
  /\ exists out,
      Ps.convert_to_stereo_16bit Scenario.small_wave = Ok out
      /\ Spec.data_length out = 4 * 3
      /\ len out = 44 + Spec.data_length out.
Proof.
  apply (convert_then_parse Scenario.small_wave).
  - unfold Spec.readable. cbn. repeat split; auto; lia.
  - cbn. lia.
  - cbn. lia.
Defined.

(* ===================================================================== *)
(** * send_samples: further properties *)
(* ===================================================================== *)

Section SendSamples.

Import Micro.



Lemma send_samples_tuples (self : I2SSlaveTX) (l : list (Z * Z)) :
  send_samples self (Tuples l)
  = Ok {| sm_put := sm_put self ++ map Spec.word_of l |}.
Proof.
  unfold send_samples. f_equal. revert self.
  induction l as [| [left right] l IH]; intros self; cbn [fold_left map].
  - rewrite app_nil_r. destruct self; reflexivity.
  - rewrite IH. unfold send_sample, put. cbn [sm_put fst snd].
    rewrite word_of_pack_sample, <- app_assoc. reflexivity.
Qed.

Lemma frames_of_wire_bytes (frames : list (Z * Z)) :
  Forall (fun f => Spec.int16 (fst f) /\ Spec.int16 (snd f)) frames ->
  Spec.frames_of (Notions.wire_bytes frames) = frames.
Proof.
  induction 1 as [| [left right] frames [Hl Hr] _ IH]; [reflexivity |].
  unfold Notions.wire_bytes in *. cbn [flat_map fst snd].
  change (le_split 2 left) with [byte.of_Z left; byte.of_Z (Z.shiftr left 8)].
  change (le_split 2 right) with [byte.of_Z right; byte.of_Z (Z.shiftr right 8)].
  cbn [app Spec.frames_of]. rewrite IH. f_equal.
  change [byte.of_Z left; byte.of_Z (Z.shiftr left 8)] with (le_split 2 left).
  change [byte.of_Z right; byte.of_Z (Z.shiftr right 8)] with (le_split 2 right).
  rewrite !le_combine_split. change (Z.of_nat 2 * 8) with 16.
  rewrite !to_signed_wrap by assumption. reflexivity.
Qed.

End SendSamples.


(** X2: the two forms of the argument of [send_samples] agree: a list of
    [(left, right)] tuples of signed 16-bit samples and the buffer that
    holds the same frames, each as two little-endian 16-bit values, send
    the same words; the frames read from such a buffer are the frames
    written to it. *)
Theorem send_samples_tuples_as_buffer
        (self : Micro.I2SSlaveTX) (frames : list (Z * Z)) :
  Forall (fun f => Spec.int16 (fst f) /\ Spec.int16 (snd f)) frames ->
  Spec.frames_of (Notions.wire_bytes frames) = frames
  /\ Micro.send_samples self (Micro.Buffer (Notions.wire_bytes frames))
     = Micro.send_samples self (Micro.Tuples frames).
Proof.
  intros Hframes.
  pose proof (frames_of_wire_bytes frames Hframes) as Hround.
  split; [exact Hround |].
  rewrite send_samples_buffer, send_samples_tuples, Hround. reflexivity.
Qed.

Lemma send_samples_tuples_as_buffer_witness :
  Spec.frames_of (Notions.wire_bytes [(1, 2); (-1, -32768)]) = [(1, 2); (-1, -32768)]
  /\ Micro.send_samples Scenario.fresh
       (Micro.Buffer (Notions.wire_bytes [(1, 2); (-1, -32768)]))
     = Micro.send_samples Scenario.fresh (Micro.Tuples [(1, 2); (-1, -32768)]).
Proof.
  apply (send_samples_tuples_as_buffer Scenario.fresh [(1, 2); (-1, -32768)]).
  repeat constructor; cbn; unfold Spec.int16; lia.
Defined.

(** X3: [send_sample] takes any two integers and keeps their low 16 bits
    only: samples that differ by multiples of 65536 send the same word, so
    32768 is sent as -32768 is. *)
Theorem send_sample_wraps (self : Micro.I2SSlaveTX) (left right j k : Z) :
  Micro.send_sample self (left + 65536 * j) (right + 65536 * k)
  = Micro.send_sample self left right.
Proof.
  unfold Micro.send_sample. f_equal.
  rewrite !pack_sample_arith.
  rewrite (Z.mul_comm 65536 j), (Z.mul_comm 65536 k).
  change 65536 with (2 ^ 16). rewrite !Z.mod_add by lia. reflexivity.
Qed.

(* ===================================================================== *)
(** * stream_audio *)
(* ===================================================================== *)

Section StreamAudio.

Import Micro.

Lemma stream_loop_until_empty (before after : list bytes) :
  forall i2s : I2SSlaveTX,
    Forall (fun data => data <> []) before ->
    stream_loop i2s (before ++ [] :: after) = stream_loop i2s before.
Proof.
  induction before as [| data before IH]; intros i2s Hne; [reflexivity |].
  inversion Hne as [| ? ? Hdata Hbefore]; subst.
  destruct data as [| c data]; [congruence |].
  cbn [app stream_loop length Nat.eqb].
  destruct (send_samples i2s (Buffer (c :: data))); cbn [bind];
    [apply IH; assumption | reflexivity].
Qed.



(** The search for the [data] chunk ends, without an error; a chunk it
    finds has its 8-byte header inside [header], strictly before the last
    8 bytes. *)
Lemma find_data_total (fuel : nat) :
  forall (header : bytes) (pos : Z),
    0 <= pos -> (1 <= fuel)%nat -> len header - pos < Z.of_nat fuel ->
    exists data_start,
      find_data fuel header pos = Some (Ok data_start)
      /\ forall d, data_start = Some d ->
                   pos + 8 <= d < len header
                   /\ slice header (d - 8) (d - 4) = b "data".
Proof.
  induction fuel as [| fuel IH]; intros header pos Hpos Hfuel Hdist; [lia |].
  cbn [find_data].
  destruct (Z.ltb_spec pos (len header - 8)) as [Hlt | Hge].
  - destruct (chunk_size_in_loop header pos Hpos Hlt) as [-> Hsize].
    destruct (bytes_eqb _ _) eqn:Hid.
    + apply bytes_eqb_eq in Hid. eexists. split; [reflexivity |].
      intros d [= <-]. split; [lia |].
      replace (pos + 8 - 8) with pos by lia.
      replace (pos + 8 - 4) with (pos + 4) by lia. exact Hid.
    + destruct (IH header (pos + 8 + Spec.declared_length header pos))
        as (data_start & Hfind & Hd); [lia | lia | lia |].
      exists data_start. split; [exact Hfind |].
      intros d Hsome. destruct (Hd d Hsome) as [Hrange Hdata].
      split; [lia | exact Hdata].
  - eexists. split; [reflexivity |]. discriminate.
Qed.





(** Positions the walk can stop at. *)
Lemma walk_position (header : bytes) (pos : Z) (found : option Z) :
  Spec.walk header pos found ->
  forall p, found = Some p -> p = pos \/ pos + 8 <= p.
Proof.
  induction 1 as [pos Hge | pos Hlt Hid | pos found Hlt Hid Hwalk IH];
    intros p Hp.
  - discriminate.
  - injection Hp as <-. auto.
  - right. pose proof (le_combine_bound (slice header (pos + 4) (pos + 8))).
    destruct (IH p Hp); lia.
Qed.







End StreamAudio.

(** X4: an empty read ends the streaming loop: what is read after it is
    not sent. *)
Theorem stream_loop_stops_at_empty_read
        (i2s : Micro.I2SSlaveTX) (before after : list bytes) :
  Forall (fun data => data <> []) before ->
  Micro.stream_loop i2s (before ++ [] :: after) = Micro.stream_loop i2s before.
Proof. intros Hne. apply stream_loop_until_empty. exact Hne. Qed.

Lemma stream_loop_stops_at_empty_read_witness :
  Micro.stream_loop Scenario.fresh
    ([Scenario.pcm_payload] ++ [] :: [Scenario.pcm_payload])
  = Micro.stream_loop Scenario.fresh [Scenario.pcm_payload].
Proof.
  apply (stream_loop_stops_at_empty_read Scenario.fresh
           [Scenario.pcm_payload] [Scenario.pcm_payload]).
  repeat constructor. discriminate.
Defined.



(** X6: the search for the [data] chunk in [stream_audio] ends without an
    error on every header, and a chunk it finds starts before the last 8
    bytes of the header: in the 44 bytes [stream_audio] reads, a [data]
    chunk at offset 36 or later is not found. *)
Theorem find_data_window (header : bytes) :
  exists data_start,
    Micro.find_data (S (length header)) header 12 = Some (Ok data_start)
    /\ forall d,
        data_start = Some d ->
        12 <= d - 8 < len header - 8
        /\ slice header (d - 8) (d - 4) = b "data".
Proof.
  destruct (find_data_total (S (length header)) header 12)
    as (data_start & Hfind & Hd); [lia | lia | unfold len; lia |].
  exists data_start. split; [exact Hfind |].
  intros d Hsome. destruct (Hd d Hsome) as [Hrange Hdata].
  split; [lia | exact Hdata].
Qed.

(** X7: [stream_audio] starts streaming only when the [fmt ] chunk is the
    first chunk of the file, or the second one behind a chunk without
    payload, and declares at least 16 bytes: in the 44 bytes read, a
    [fmt ] chunk further back is cut short and the parse fails. *)
Theorem stream_audio_needs_early_fmt
        (stdin : bytes) (warning : bool) (i2s : Micro.I2SSlaveTX) :
  Micro.stream_audio stdin = Some (Micro.Streaming_complete warning i2s) ->
  exists p,
    Spec.walk (slice stdin 0 44) 12 (Some p)
    /\ (p = 12 \/ p = 20)
    /\ 16 <= Spec.declared_length (slice stdin 0 44) p.
Proof.
  unfold Micro.stream_audio.
  change (fst (Micro.read stdin 44)) with (slice stdin 0 44).
  destruct (Z.ltb_spec (len (slice stdin 0 44)) 44) as [| Hlen]; [discriminate |].
  assert (H44 : len (slice stdin 0 44) = 44).
  { pose proof (slice_length stdin 0 44 ltac:(lia)). lia. }
  destruct (parse_wav_header_cases (slice stdin 0 44))
    as [[_ ->] | [(_ & _ & ->) | [(_ & p & _ & _ & ->) | (_ & p & Hw & Hpay & _)]]];
    try discriminate.
  intros _. exists p.
  pose proof (walk_position _ _ _ Hw p eq_refl) as Hpos.
  unfold Spec.payload_at in Hpay.
  rewrite slice_length in Hpay by lia.
  split; [exact Hw |]. split; lia.
Qed.

Lemma stream_audio_needs_early_fmt_witness :
  exists p,
    Spec.walk (slice Scenario.wav 0 44) 12 (Some p)
    /\ (p = 12 \/ p = 20)
    /\ 16 <= Spec.declared_length (slice Scenario.wav 0 44) p.
Proof.
  apply (stream_audio_needs_early_fmt Scenario.wav false Scenario.fresh).
  vm_compute. reflexivity.
Defined.

(* ===================================================================== *)
(** * send_wav_file: the chunks on the wire *)
(* ===================================================================== *)

Section SendChunks.

Import Ps.

Lemma send_chunks_from (chunk_size : Z) (Hsize : 0 < chunk_size) (n : nat) :
  forall (rest pre : bytes) (k : nat) (st : sender),
    (length rest <= n)%nat ->
    len pre = chunk_size * Z.of_nat k ->
    exists pieces,
      fold_left (send_chunk (pre ++ rest) chunk_size)
                (map (fun j => 0 + chunk_size * Z.of_nat j)
                     (seq k (Z.to_nat ((len rest + chunk_size - 1) / chunk_size))))
                st
      = {| written := written st ++ pieces; sent := sent st + len rest |}
      /\ concat pieces = rest
      /\ Forall (fun chunk => 0 < len chunk <= chunk_size) pieces
      /\ Forall (fun chunk => len chunk = chunk_size) (removelast pieces).
Proof.
  induction n as [| n IH]; intros rest pre k st Hn Hpre.
  - destruct rest; [| cbn in Hn; lia]. exists [].
    change (len (@nil byte)) with 0.
    rewrite Z.div_small by lia. cbn. rewrite app_nil_r, Z.add_0_r.
    destruct st. auto.
  - destruct rest as [| c rest'] eqn:Hrest.
    { exists []. change (len (@nil byte)) with 0.
      rewrite Z.div_small by lia. cbn. rewrite app_nil_r, Z.add_0_r.
      destruct st. auto. }
    rewrite <- Hrest in *.
    assert (Hpos : 0 < len rest) by (subst rest; unfold len; cbn [length]; lia).
    set (chunk := firstn (Z.to_nat chunk_size) rest).
    set (rest2 := skipn (Z.to_nat chunk_size) rest).
    assert (Hsplit : rest = chunk ++ rest2)
      by (symmetry; apply firstn_skipn).
    assert (Hchunk : len chunk = Z.min chunk_size (len rest)).
    { unfold chunk, len. rewrite length_firstn. lia. }
    assert (Hrest2 : len rest2 = len rest - len chunk).
    { unfold rest2, chunk, len. rewrite length_skipn, length_firstn. lia. }
    assert (Hcount : Z.to_nat ((len rest + chunk_size - 1) / chunk_size)
                     = S (Z.to_nat ((len rest2 + chunk_size - 1) / chunk_size))).
    { destruct (Z.le_gt_cases (len rest) chunk_size) as [Hle | Hgt].
      - replace (len rest2) with 0 by lia.
        rewrite (Z.div_small (0 + chunk_size - 1)) by lia.
        assert ((len rest + chunk_size - 1) / chunk_size = 1).
        { symmetry. apply (Z.div_unique _ chunk_size 1 (len rest - 1)); lia. }
        lia.
      - replace (len rest + chunk_size - 1)
          with (1 * chunk_size + (len rest2 + chunk_size - 1)) by lia.
        rewrite Z.div_add_l by lia.
        rewrite Z2Nat.inj_add by (try apply Z.div_pos; lia). reflexivity. }
    rewrite Hcount. cbn [seq map fold_left].
    assert (Hstep : send_chunk (pre ++ rest) chunk_size st
                               (0 + chunk_size * Z.of_nat k)
                    = {| written := written st ++ [chunk];
                         sent := sent st + len chunk |}).
    { unfold send_chunk. rewrite Z.add_0_l, <- Hpre.
      assert (Hslice : slice (pre ++ rest) (len pre) (len pre + chunk_size) = chunk).
      { rewrite <- (Z.add_0_r (len pre)) at 1.
        rewrite slice_app_r by lia.
        unfold slice. cbn [Z.to_nat skipn]. rewrite Z.sub_0_r. reflexivity. }
      rewrite Hslice. reflexivity. }
    rewrite Hstep.
    destruct (Z.le_gt_cases (len rest) chunk_size) as [Hle | Hgt].
    + assert (Hnil : rest2 = []).
      { destruct rest2; [reflexivity |]. unfold len in Hrest2. cbn [length] in Hrest2.
        unfold len in *. lia. }
      exists [chunk]. rewrite Hnil. change (len (@nil byte)) with 0.
      rewrite (Z.div_small (0 + chunk_size - 1)) by lia. cbn [Z.to_nat seq map fold_left].
      split; [f_equal; lia |]. split.
      { cbn [concat]. rewrite app_nil_r.
        rewrite Hsplit, Hnil, app_nil_r. reflexivity. }
      split; [constructor; [lia | constructor] | constructor].
    + destruct (IH rest2 (pre ++ chunk) (S k)
                   {| written := written st ++ [chunk];
                      sent := sent st + len chunk |})
        as (pieces & Hfold & Hcat & Hne & Hfull).
      { unfold len in *. subst rest. cbn [length] in *. lia. }
      { rewrite len_app. lia. }
      exists (chunk :: pieces).
      replace (pre ++ rest) with ((pre ++ chunk) ++ rest2)
        by (rewrite <- app_assoc, <- Hsplit; reflexivity).
      rewrite Hfold. cbn [written sent].
      split; [rewrite <- app_assoc; f_equal; lia |].
      split; [cbn [concat]; rewrite Hcat; symmetry; exact Hsplit |].
      split; [constructor; [lia | exact Hne] |].
      destruct pieces as [| piece pieces].
      * cbn in Hcat. unfold len in Hrest2. rewrite <- Hcat in Hrest2.
        cbn [length] in Hrest2. unfold len in *. lia.
      * change (removelast (chunk :: piece :: pieces))
          with (chunk :: removelast (piece :: pieces)).
        constructor; [lia | exact Hfull].
Qed.

Lemma send_chunks_cut (wav_data : bytes) (chunk_size : Z) :
  0 < chunk_size ->
  concat (written (send_chunks wav_data chunk_size)) = wav_data
  /\ sent (send_chunks wav_data chunk_size) = len wav_data
  /\ Forall (fun chunk => 0 < len chunk <= chunk_size)
            (written (send_chunks wav_data chunk_size))
  /\ Forall (fun chunk => len chunk = chunk_size)
            (removelast (written (send_chunks wav_data chunk_size))).
Proof.
  intros Hsize. unfold send_chunks, range.
  replace (len wav_data - 0 + chunk_size - 1)
    with (len wav_data + chunk_size - 1) by lia.
  destruct (send_chunks_from chunk_size Hsize (length wav_data) wav_data [] 0
              {| written := []; sent := 0 |})
    as (pieces & Hfold & Hcat & Hne & Hfull);
    [lia | change (len (@nil byte)) with 0; lia |].
  cbn [app] in Hfold. rewrite Hfold. cbn [written sent app]. auto.
Qed.

End SendChunks.

(** X8: the "Send in chunks" loop of [send_wav_file], for a positive
    chunk size: the chunks written to the serial port, one after the
    other, are the data, byte for byte; no chunk is empty or longer than
    the chunk size and all but the last one have exactly the chunk size;
    and [sent] ends as the length of the data. *)
Theorem send_chunks_writes_all (wav_data : bytes) (chunk_size : Z) :
  0 < chunk_size ->
  concat (Ps.written (Ps.send_chunks wav_data chunk_size)) = wav_data
  /\ Ps.sent (Ps.send_chunks wav_data chunk_size) = len wav_data
  /\ Forall (fun chunk => 0 < len chunk <= chunk_size)
            (Ps.written (Ps.send_chunks wav_data chunk_size))
  /\ Forall (fun chunk => len chunk = chunk_size)
            (removelast (Ps.written (Ps.send_chunks wav_data chunk_size))).
Proof. intros Hsize. apply send_chunks_cut. exact Hsize. Qed.

Lemma send_chunks_writes_all_witness :
  concat (Ps.written (Ps.send_chunks Scenario.wav 20)) = Scenario.wav
  /\ Ps.sent (Ps.send_chunks Scenario.wav 20) = len Scenario.wav
  /\ Forall (fun chunk => 0 < len chunk <= 20)
            (Ps.written (Ps.send_chunks Scenario.wav 20))
  /\ Forall (fun chunk => len chunk = 20)
            (removelast (Ps.written (Ps.send_chunks Scenario.wav 20))).
Proof. apply (send_chunks_writes_all Scenario.wav 20). lia. Defined.



(* ===================================================================== *)
(** * parse_wav_header: further properties *)
(* ===================================================================== *)

Section ParseMore.

Import Micro.

Lemma slice_app_within {A : Type} (buf more : list A) (lo hi : Z) :
  0 <= lo -> hi <= len buf -> slice (buf ++ more) lo hi = slice buf lo hi.
Proof.
  intros Hlo Hhi. unfold slice, len in *.
  destruct (Z.le_gt_cases lo hi) as [Hle | Hgt].
  - rewrite skipn_app, firstn_app, length_skipn.
    replace (Z.to_nat (hi - lo) - (length buf - Z.to_nat lo))%nat with 0%nat by lia.
    cbn [firstn]. apply app_nil_r.
  - replace (Z.to_nat (hi - lo)) with 0%nat by lia. reflexivity.
Qed.

Lemma walk_extend (header more : bytes) (pos : Z) (found : option Z) :
  Spec.walk header pos found ->
  forall p, found = Some p -> 0 <= pos ->
  Spec.walk (header ++ more) pos (Some p).
Proof.
  pose proof (len_nonneg more) as Hmore.
  induction 1 as [pos Hge | pos Hlt Hid | pos found Hlt Hid Hwalk IH];
    intros p Hp Hpos.
  - discriminate.
  - injection Hp as <-. apply Spec.walk_found.
    + rewrite len_app. lia.
    + rewrite slice_app_within by lia. exact Hid.
  - pose proof (le_combine_bound (slice header (pos + 4) (pos + 8))) as Hb.
    apply Spec.walk_skip.
    + rewrite len_app. lia.
    + rewrite slice_app_within by lia. exact Hid.
    + rewrite slice_app_within by lia. apply IH; [exact Hp | lia].
Qed.

(** The first 16 bytes of the payload, read from the header. *)
Lemma payload_field (header : bytes) (p lo hi : Z) :
  0 <= p -> 0 <= lo <= hi -> hi <= 16 ->
  16 <= len (Spec.payload_at header p) ->
  slice (Spec.payload_at header p) lo hi = slice header (p + 8 + lo) (p + 8 + hi)
  /\ p + 8 + hi <= len header.
Proof.
  intros Hp Hlo Hhi Hpay. unfold Spec.payload_at in *.
  rewrite slice_length in Hpay by lia.
  split; [apply slice_slice; lia | lia].
Qed.

Lemma le_combine_slice_bound (buf : bytes) (lo hi : Z) :
  0 <= lo <= hi -> 0 <= le_combine (slice buf lo hi) < 2 ^ (8 * (hi - lo)).
Proof.
  intros Hlo. pose proof (le_combine_bound (slice buf lo hi)) as Hb.
  pose proof (slice_length buf lo hi ltac:(lia)) as Hl. unfold len in Hl.
  assert (2 ^ (8 * Z.of_nat (length (slice buf lo hi))) <= 2 ^ (8 * (hi - lo)))
    by (apply Z.pow_le_mono_r; lia).
  lia.
Qed.

Lemma parse_ok_fields (header : bytes) (info : wav_info) :
  parse_wav_header header = Some (Ok info) ->
  Spec.magic header
  /\ exists p,
      Spec.walk header 12 (Some p)
      /\ 12 <= p
      /\ 16 <= len (Spec.payload_at header p)
      /\ info = {| format := le_combine (slice (Spec.payload_at header p) 0 2);
                   channels := le_combine (slice (Spec.payload_at header p) 2 4);
                   sample_rate := le_combine (slice (Spec.payload_at header p) 4 8);
                   bits := le_combine (slice (Spec.payload_at header p) 14 16) |}.
Proof.
  intros Hparse.
  destruct (parse_wav_header_cases header)
    as [[_ Hr] | [(_ & _ & Hr) | [(_ & p & _ & _ & Hr) | (Hm & p & Hw & Hpay & Hr)]]];
    rewrite Hr in Hparse; try discriminate.
  injection Hparse as <-. split; [exact Hm |]. exists p.
  pose proof (walk_position _ _ _ Hw p eq_refl).
  repeat split; try assumption. lia.
Qed.

End ParseMore.

(** X10: a header of fewer than 12 bytes is rejected as "Not a valid WAV
    file", and [parse_wav_header] returns a descriptor only for headers of
    at least 36 bytes: the 12 bytes of the file header, the 8 bytes of
    the [fmt ] chunk header and 16 bytes of its payload. *)
Theorem parse_wav_header_short (header : bytes) :
  (len header < 12 ->
   Micro.parse_wav_header header = Some (Raise Micro.Not_a_valid_WAV_file))
  /\ (len header < 36 ->
      exists e, Micro.parse_wav_header header = Some (Raise e)).
Proof.
  split.
  - intros Hshort.
    destruct (parse_wav_header_cases header)
      as [[_ Hr] | [(Hm & _) | [(Hm & _) | (Hm & _)]]]; [exact Hr | | |];
      destruct Hm as [_ Hwave];
      apply (f_equal len) in Hwave;
      rewrite slice_length in Hwave by lia;
      change (len (b "WAVE")) with 4 in Hwave; lia.
  - intros Hshort.
    destruct (Micro.parse_wav_header header) as [[info | e] |] eqn:Hparse.
    + destruct (parse_ok_fields header info Hparse) as (_ & p & _ & Hp & Hpay & _).
      unfold Spec.payload_at in Hpay. rewrite slice_length in Hpay by lia. lia.
    + eauto.
    + destruct (parse_wav_header_total header) as [r Hr]. congruence.
Qed.

Lemma parse_wav_header_short_witness :
  Micro.parse_wav_header (b "RIFF") = Some (Raise Micro.Not_a_valid_WAV_file)
  /\ exists e, Micro.parse_wav_header Scenario.truncated_fmt = Some (Raise e).
Proof.
  split.
  - apply (proj1 (parse_wav_header_short (b "RIFF"))). vm_compute. reflexivity.
  - apply (proj2 (parse_wav_header_short Scenario.truncated_fmt)).
    vm_compute. reflexivity.
Defined.

(** X11: the descriptor [parse_wav_header] returns holds unsigned values
    of the width of their fields: format, channels and bits below 2^16,
    the sample rate below 2^32. *)
Theorem parse_wav_header_field_ranges (header : bytes) (info : Micro.wav_info) :
  Micro.parse_wav_header header = Some (Ok info) ->
  0 <= Micro.format info < 2 ^ 16
  /\ 0 <= Micro.channels info < 2 ^ 16
  /\ 0 <= Micro.sample_rate info < 2 ^ 32
  /\ 0 <= Micro.bits info < 2 ^ 16.
Proof.
  intros Hparse.
  destruct (parse_ok_fields header info Hparse) as (_ & p & _ & _ & _ & ->).
  cbn [Micro.format Micro.channels Micro.sample_rate Micro.bits].
  repeat split; apply le_combine_slice_bound; lia.
Qed.

Lemma parse_wav_header_field_ranges_witness :
  0 <= 1 < 2 ^ 16 /\ 0 <= 2 < 2 ^ 16 /\ 0 <= 44100 < 2 ^ 32 /\ 0 <= 16 < 2 ^ 16.
Proof.
  apply (parse_wav_header_field_ranges Scenario.wav
           {| Micro.format := 1; Micro.channels := 2;
              Micro.sample_rate := 44100; Micro.bits := 16 |}).
  vm_compute. reflexivity.
Defined.

(** X12: bytes that follow do not change a successful parse: when
    [parse_wav_header] returns a descriptor for a header, it returns the
    same descriptor for that header followed by any further bytes. *)
Theorem parse_wav_header_more_input
        (header more : bytes) (info : Micro.wav_info) :
  Micro.parse_wav_header header = Some (Ok info) ->
  Micro.parse_wav_header (header ++ more) = Some (Ok info).
Proof.
  intros Hparse.
  destruct (parse_ok_fields header info Hparse)
    as ([Hriff Hwave] & p & Hw & Hp & Hpay & ->).
  pose proof (len_nonneg more) as Hmore.
  assert (Hlen : p + 24 <= len header).
  { unfold Spec.payload_at in Hpay. rewrite slice_length in Hpay by lia. lia. }
  assert (Hdecl : Spec.declared_length (header ++ more) p
                  = Spec.declared_length header p).
  { unfold Spec.declared_length. rewrite slice_app_within by lia. reflexivity. }
  assert (Hpay' : 16 <= len (Spec.payload_at (header ++ more) p)).
  { unfold Spec.payload_at in *. rewrite Hdecl.
    rewrite slice_length in Hpay |- * by lia. rewrite len_app. lia. }
  assert (Hfield : forall lo hi,
             0 <= lo <= hi -> hi <= 16 ->
             slice (Spec.payload_at (header ++ more) p) lo hi
             = slice (Spec.payload_at header p) lo hi).
  { intros lo hi Hlo Hhi.
    destruct (payload_field (header ++ more) p lo hi) as [-> _]; try lia.
    destruct (payload_field header p lo hi) as [-> _]; try lia.
    apply slice_app_within; lia. }
  pose proof (walk_extend header more 12 (Some p) Hw p eq_refl ltac:(lia)) as Hw'.
  destruct (parse_wav_header_cases (header ++ more))
    as [[Hm _] | [(_ & Hnone & _) | [(_ & q & Hq & Hshort & _) | (_ & q & Hq & _ & ->)]]].
  - exfalso. apply Hm. split; rewrite slice_app_within by lia; assumption.
  - pose proof (walk_functional _ _ _ _ Hw' Hnone). discriminate.
  - pose proof (walk_functional _ _ _ _ Hw' Hq) as [= <-]. lia.
  - pose proof (walk_functional _ _ _ _ Hw' Hq) as [= <-].
    rewrite !Hfield by lia. reflexivity.
Qed.

Lemma parse_wav_header_more_input_witness :
  Micro.parse_wav_header (slice Scenario.wav 0 44 ++ Scenario.pcm_payload)
  = Some (Ok {| Micro.format := 1; Micro.channels := 2;
                Micro.sample_rate := 44100; Micro.bits := 16 |}).
Proof.
  apply (parse_wav_header_more_input (slice Scenario.wav 0 44) Scenario.pcm_payload).
  vm_compute. reflexivity.
Defined.

(* ===================================================================== *)
(** * convert_to_stereo_16bit: further properties *)
(* ===================================================================== *)

Section ConvertMore.

Import Ps.

Lemma pack_ok_inv (n : nat) (signed : bool) (v : Z) (x : bytes) :
  pack n signed v = Ok x ->
  x = le_split n v
  /\ (signed = false -> 0 <= v < 2 ^ (8 * Z.of_nat n)).
Proof.
  unfold pack. cbv zeta.
  destruct signed.
  - destruct (_ && _); [| discriminate]. intros [= <-]. split; [reflexivity |].
    discriminate.
  - destruct (Z.leb_spec 0 v); [| discriminate].
    destruct (Z.ltb_spec v (2 ^ (8 * Z.of_nat n))); [| discriminate].
    intros [= <-]. split; [reflexivity | intros _; lia].
Qed.

Lemma pack_list_sample_bytes (samples : list Z) :
  Forall Spec.int16 samples ->
  pack_list 2 true samples = Ok (Notions.sample_bytes samples).
Proof.
  induction 1 as [| v vs Hv _ IH]; [reflexivity |].
  cbn [pack_list]. rewrite pack_h_ok, IH by assumption. reflexivity.
Qed.

Lemma len_sample_bytes (samples : list Z) :
  len (Notions.sample_bytes samples) = 2 * len samples.
Proof.
  induction samples as [| v vs IH]; [reflexivity |].
  unfold Notions.sample_bytes in *. cbn [flat_map].
  rewrite len_app, len_le_split, IH. unfold len. cbn [length]. lia.
Qed.

Lemma unpack_fields_sample_bytes (samples : list Z) :
  Forall Spec.int16 samples ->
  unpack_fields 2 true (length samples) (Notions.sample_bytes samples) = samples.
Proof.
  induction 1 as [| v vs Hv _ IH]; [reflexivity |].
  unfold Notions.sample_bytes in *. cbn [flat_map length unpack_fields].
  change (le_split 2 v) with [byte.of_Z v; byte.of_Z (Z.shiftr v 8)].
  cbn [app firstn skipn]. rewrite IH. f_equal.
  change [byte.of_Z v; byte.of_Z (Z.shiftr v 8)] with (le_split 2 v).
  rewrite le_combine_split. change (Z.of_nat 2 * 8) with 16.
  change (8 * Z.of_nat 2) with 16. apply to_signed_wrap. exact Hv.
Qed.

(** Mono to stereo on the bytes of 16-bit samples: every sample becomes
    a frame with the sample on both channels. *)
Lemma to_stereo_duplicates (samples : list Z) :
  Forall Spec.int16 samples ->
  to_stereo 1 (Notions.sample_bytes samples)
  = Ok (Notions.wire_bytes (map (fun s => (s, s)) samples), 2).
Proof.
  intros Hs. unfold to_stereo. cbn [Z.eqb Pos.eqb].
  pose proof (len_sample_bytes samples) as Hlen.
  assert (Hdiv : len (Notions.sample_bytes samples) / 2 = len samples).
  { rewrite Hlen, Z.mul_comm. apply Z.div_mul. lia. }
  rewrite Hdiv, unpack_list_exact by (rewrite Hlen; change (Z.of_nat 2) with 2; lia).
  cbn [bind]. unfold len at 1. rewrite Nat2Z.id.
  rewrite unpack_fields_sample_bytes by exact Hs.
  rewrite pack_list_sample_bytes.
  - cbn [bind]. do 2 f_equal.
    unfold Notions.sample_bytes, Notions.wire_bytes.
    clear. induction samples as [| v vs IH]; [reflexivity |].
    cbn [flat_map map fst snd app]. rewrite IH, <- app_assoc. reflexivity.
  - apply Forall_forall. intros v Hv.
    apply in_flat_map in Hv as (u & Hu & Hv).
    rewrite Forall_forall in Hs.
    assert (v = u) as -> by (cbn in Hv; intuition congruence).
    apply Hs. exact Hu.
Qed.

Lemma len_wire_bytes (frames : list (Z * Z)) :
  len (Notions.wire_bytes frames) = 4 * len frames.
Proof.
  induction frames as [| f fs IH]; [reflexivity |].
  unfold Notions.wire_bytes in *. cbn [flat_map].
  rewrite !len_app, !len_le_split, IH. unfold len. cbn [length]. lia.
Qed.

(** What a successful conversion has written. *)
Lemma convert_ok_layout (wf : Wave_read) (out : bytes) :
  convert_to_stereo_16bit wf = Ok out ->
  exists frames16 frames channels,
    to_16bit (getsampwidth wf) (readframes wf) = Ok frames16
    /\ to_stereo (getnchannels wf) frames16 = Ok (frames, channels)
    /\ out = Notions.pcm16_wav channels (getframerate wf) frames
    /\ 0 <= channels < 2 ^ 16
    /\ 0 <= getframerate wf < 2 ^ 32
    /\ 36 + len frames < 2 ^ 32.
Proof.
  unfold convert_to_stereo_16bit. intros Hout.
  destruct (to_16bit _ _) as [frames16 |] eqn:H16; [| discriminate].
  cbn [bind] in Hout.
  destruct (to_stereo _ frames16) as [[frames channels] |] eqn:Hst;
    [| discriminate].
  cbn [bind fst snd] in Hout.
  unfold pack_I, pack_H in Hout.
  repeat match type of Hout with
         | bind (pack ?n ?sg ?v) _ = _ =>
             let H := fresh "Hp" in
             destruct (pack n sg v) eqn:H; [| discriminate];
             apply pack_ok_inv in H; destruct H as [-> H];
             specialize (H eq_refl); cbn [bind] in Hout
         end.
  exists frames16, frames, channels.
  change (8 * Z.of_nat 4) with 32 in *. change (8 * Z.of_nat 2) with 16 in *.
  split; [reflexivity |]. split; [exact Hst |].
  split; [| repeat split; lia].
  unfold Notions.pcm16_wav. congruence.
Qed.

Lemma pcm16_wav_layout (channels framerate : Z) (frames : bytes) :
  Notions.pcm16_wav channels framerate frames
  = Spec.riff (le_split 4 (36 + len frames))
      (flat_map Spec.encode_chunk []
       ++ b "fmt " ++ le_split 4 16
       ++ Spec.fmt_fields 1 channels framerate 16
            (le_split 4 (framerate * channels * 2) ++ le_split 2 (channels * 2))
       ++ b "data" ++ le_split 4 (len frames) ++ frames).
Proof.
  unfold Notions.pcm16_wav, Spec.riff, Spec.fmt_fields.
  change (flat_map Spec.encode_chunk []) with (@nil byte).
  cbn [app]. rewrite <- !app_assoc. reflexivity.
Qed.

Lemma pcm16_wav_sizes (channels framerate : Z) (frames : bytes) :
  36 + len frames < 2 ^ 32 ->
  len (Notions.pcm16_wav channels framerate frames) = 44 + len frames
  /\ Notions.riff_size (Notions.pcm16_wav channels framerate frames)
     = 36 + len frames
  /\ Spec.data_length (Notions.pcm16_wav channels framerate frames) = len frames.
Proof.
  intros Hsize. pose proof (len_nonneg frames) as Hnn.
  unfold Notions.riff_size, Spec.data_length, Notions.pcm16_wav.
  split; [| split].
  - rewrite !len_app, !len_le_split.
    change (len (b "RIFF")) with 4. change (len (b "WAVE")) with 4.
    change (len (b "fmt ")) with 4. change (len (b "data")) with 4. lia.
  - rewrite slice_middle by (rewrite ?len_le_split; reflexivity).
    apply le_combine_le_split_small. lia.
  - repeat rewrite app_assoc. rewrite <- (app_assoc _ (le_split 4 (len frames))).
    rewrite slice_middle.
    + apply le_combine_le_split_small. lia.
    + rewrite !len_app, !len_le_split. reflexivity.
    + rewrite !len_app, !len_le_split. reflexivity.
Qed.

Lemma pcm16_wav_stereo (framerate : Z) (frames : bytes) :
  Notions.pcm16_wav 2 framerate frames = Spec.stereo16_wav framerate frames.
Proof. reflexivity. Qed.

End ConvertMore.

(** X13: a 16-bit stereo input is passed through: with a byte rate and a
    RIFF size that fit their 32-bit fields, the output is the 44-byte
    header followed by the input's frame bytes, unchanged, whatever their
    number. *)
Theorem convert_passes_16bit_stereo (wf : Ps.Wave_read) :
  Ps.getnchannels wf = 2 -> Ps.getsampwidth wf = 2 ->
  0 <= Ps.getframerate wf < 2 ^ 30 ->
  36 + len (Ps.readframes wf) < 2 ^ 32 ->
  Ps.convert_to_stereo_16bit wf
  = Ok (Spec.stereo16_wav (Ps.getframerate wf) (Ps.readframes wf))
  /\ skipn 44 (Spec.stereo16_wav (Ps.getframerate wf) (Ps.readframes wf))
     = Ps.readframes wf.
Proof.
  intros Hch Hsw Hrate Hsize. split.
  - apply (convert_writes_header wf (Ps.readframes wf)); try lia.
    + rewrite Hsw. reflexivity.
    + rewrite Hch. reflexivity.
  - reflexivity.
Qed.

Lemma convert_passes_16bit_stereo_witness :
  Ps.convert_to_stereo_16bit
    {| Ps.getnchannels := 2; Ps.getsampwidth := 2; Ps.getframerate := 44100;
       Ps.getnframes := 2; Ps.readframes := Scenario.pcm_payload |}
  = Ok (Spec.stereo16_wav 44100 Scenario.pcm_payload)
  /\ skipn 44 (Spec.stereo16_wav 44100 Scenario.pcm_payload) = Scenario.pcm_payload.
Proof.
  apply (convert_passes_16bit_stereo
           {| Ps.getnchannels := 2; Ps.getsampwidth := 2; Ps.getframerate := 44100;
              Ps.getnframes := 2; Ps.readframes := Scenario.pcm_payload |});
    cbn; try reflexivity; lia.
Defined.

(** X14: a 16-bit mono input is duplicated onto both channels: when the
    input's frames are the signed 16-bit samples [s1, s2, ...], the frames
    of the output are [(s1, s1), (s2, s2), ...]. *)
Theorem convert_duplicates_mono (wf : Ps.Wave_read) (samples : list Z) :
  Ps.getnchannels wf = 1 -> Ps.getsampwidth wf = 2 ->
  Ps.readframes wf = Notions.sample_bytes samples ->
  Forall Spec.int16 samples ->
  0 <= Ps.getframerate wf < 2 ^ 30 ->
  36 + 4 * len samples < 2 ^ 32 ->
  exists data,
    Ps.convert_to_stereo_16bit wf = Ok (Spec.stereo16_wav (Ps.getframerate wf) data)
    /\ Spec.frames_of data = map (fun s => (s, s)) samples.
Proof.
  intros Hch Hsw Hframes Hs Hrate Hsize.
  exists (Notions.wire_bytes (map (fun s => (s, s)) samples)). split.
  - apply (convert_writes_header wf (Ps.readframes wf)); try lia.
    + rewrite Hsw. reflexivity.
    + rewrite Hch, Hframes. apply to_stereo_duplicates. exact Hs.
    + rewrite len_wire_bytes, len_map. lia.
  - apply frames_of_wire_bytes.
    apply Forall_forall. intros f Hf.
    apply in_map_iff in Hf as (s & <- & Hin).
    rewrite Forall_forall in Hs. cbn [fst snd]. auto.
Qed.

Lemma convert_duplicates_mono_witness :
  exists data,
    Ps.convert_to_stereo_16bit
      {| Ps.getnchannels := 1; Ps.getsampwidth := 2; Ps.getframerate := 8000;
         Ps.getnframes := 2; Ps.readframes := Notions.sample_bytes [7; -3] |}
    = Ok (Spec.stereo16_wav 8000 data)
    /\ Spec.frames_of data = map (fun s => (s, s)) [7; -3].
Proof.
  apply (convert_duplicates_mono
           {| Ps.getnchannels := 1; Ps.getsampwidth := 2; Ps.getframerate := 8000;
              Ps.getnframes := 2; Ps.readframes := Notions.sample_bytes [7; -3] |});
    cbn; try reflexivity; try lia.
  repeat constructor; unfold Spec.int16; lia.
Defined.

(** X15: an 8-bit mono input: every unsigned byte [c] of the input becomes
    one frame with [(c - 128) * 256] on both channels, so the byte 128
    (silence) becomes the frame (0, 0). *)
Theorem convert_8bit_mono (wf : Ps.Wave_read) :
  Ps.getnchannels wf = 1 -> Ps.getsampwidth wf = 1 ->
  0 <= Ps.getframerate wf < 2 ^ 30 ->
  36 + 4 * len (Ps.readframes wf) < 2 ^ 32 ->
  exists data,
    Ps.convert_to_stereo_16bit wf = Ok (Spec.stereo16_wav (Ps.getframerate wf) data)
    /\ Spec.frames_of data
       = map (fun c => ((byte.unsigned c - 128) * 256, (byte.unsigned c - 128) * 256))
             (Ps.readframes wf).
Proof.
  intros Hch Hsw Hrate Hsize.
  set (samples := map Ps.from_8bit (map byte.unsigned (Ps.readframes wf))).
  assert (Hs : Forall Spec.int16 samples).
  { apply Forall_forall. intros v Hv.
    apply in_map_iff in Hv as (s & <- & Hin).
    apply in_map_iff in Hin as (c & <- & _).
    pose proof (byte.unsigned_range c).
    pose proof (from_8bit_range (byte.unsigned c) ltac:(lia)).
    unfold Spec.int16. lia. }
  exists (Notions.wire_bytes (map (fun s => (s, s)) samples)). split.
  - apply (convert_writes_header wf (Notions.sample_bytes samples)); try lia.
    + rewrite Hsw. unfold Ps.to_16bit. cbn [Z.eqb Pos.eqb].
      apply pack_list_sample_bytes. exact Hs.
    + rewrite Hch. apply to_stereo_duplicates. exact Hs.
    + rewrite len_wire_bytes. unfold samples. rewrite !len_map. lia.
  - rewrite frames_of_wire_bytes.
    + unfold samples. rewrite !map_map. reflexivity.
    + apply Forall_forall. intros f Hf.
      apply in_map_iff in Hf as (s & <- & Hin).
      rewrite Forall_forall in Hs. cbn [fst snd]. auto.
Qed.

Lemma convert_8bit_mono_witness :
  exists data,
    Ps.convert_to_stereo_16bit Scenario.small_wave = Ok (Spec.stereo16_wav 8000 data)
    /\ Spec.frames_of data
       = map (fun c => ((byte.unsigned c - 128) * 256, (byte.unsigned c - 128) * 256))
             [Byte.x00; Byte.x80; Byte.xff].
Proof.
  apply (convert_8bit_mono Scenario.small_wave); cbn; try reflexivity; lia.
Defined.

(** X16: whenever [convert_to_stereo_16bit] succeeds, its output is a
    consistent 16-bit PCM file: it is 44 bytes longer than its frame data,
    its RIFF size field is the length of the file minus 8, its [data]
    size field the length minus 44, and [parse_wav_header] reads back
    format 1, the input's sample rate, 16 bits and the channel count
    written, which is 2 for a mono input and the input's own count
    otherwise: an input of more than two channels is not made stereo. *)
Theorem convert_output_is_consistent (wf : Ps.Wave_read) (out : bytes) :
  Ps.convert_to_stereo_16bit wf = Ok out ->
  44 <= len out
  /\ Notions.riff_size out = len out - 8
  /\ Spec.data_length out = len out - 44
  /\ Micro.parse_wav_header out
     = Some (Ok {| Micro.format := 1;
                   Micro.channels :=
                     if Ps.getnchannels wf =? 1 then 2 else Ps.getnchannels wf;
                   Micro.sample_rate := Ps.getframerate wf;
                   Micro.bits := 16 |}).
Proof.
  intros Hout.
  destruct (convert_ok_layout wf out Hout)
    as (frames16 & frames & channels & _ & Hst & -> & Hch & Hrate & Hsize).
  destruct (pcm16_wav_sizes channels (Ps.getframerate wf) frames Hsize)
    as (Hlen & Hriff & Hdata).
  pose proof (len_nonneg frames) as Hnn.
  split; [lia |]. split; [lia |]. split; [lia |].
  assert (Hchannels : channels
                      = if Ps.getnchannels wf =? 1 then 2 else Ps.getnchannels wf).
  { unfold Ps.to_stereo in Hst.
    destruct (Ps.getnchannels wf =? 1).
    - destruct (unpack_list _ _ _ _); [| discriminate]. cbn [bind] in Hst.
      destruct (pack_list _ _ _); [| discriminate]. cbn [bind] in Hst.
      congruence.
    - congruence. }
  rewrite <- Hchannels, pcm16_wav_layout.
  apply fmt_header_parse;
    rewrite ?length_app, ?length_le_split; try reflexivity; try lia.
  constructor.
Qed.

Lemma convert_output_is_consistent_witness :
  44 <= len (Spec.stereo16_wav 44100 Scenario.pcm_payload)
  /\ Notions.riff_size (Spec.stereo16_wav 44100 Scenario.pcm_payload)
     = len (Spec.stereo16_wav 44100 Scenario.pcm_payload) - 8
  /\ Spec.data_length (Spec.stereo16_wav 44100 Scenario.pcm_payload)
     = len (Spec.stereo16_wav 44100 Scenario.pcm_payload) - 44
  /\ Micro.parse_wav_header (Spec.stereo16_wav 44100 Scenario.pcm_payload)
     = Some (Ok {| Micro.format := 1; Micro.channels := if 2 =? 1 then 2 else 2;
                   Micro.sample_rate := 44100; Micro.bits := 16 |}).
Proof.
  apply (convert_output_is_consistent
           {| Ps.getnchannels := 2; Ps.getsampwidth := 2; Ps.getframerate := 44100;
              Ps.getnframes := 2; Ps.readframes := Scenario.pcm_payload |}).
  vm_compute. reflexivity.
Defined.

(* ===================================================================== *)
(** * The PIO program, pass by pass *)
(* ===================================================================== *)

Section Passes.

Local Abbreviation cfg := (Micro.sm_config Micro.BCK_PIN Micro.WS_PIN Micro.SD_PIN).
Local Abbreviation prog := Micro.i2s_slave_tx.

Lemma pio_run_app (t1 t2 : list (Z -> bool)) (s : PIO.state) :
  PIO.run cfg prog (t1 ++ t2) s = PIO.run cfg prog t2 (PIO.run cfg prog t1 s).
Proof. unfold PIO.run. apply fold_left_app. Qed.

Lemma shift_out_n_succ (k : nat) (w : Z) :
  PIO.shift_out_n PIO.SHIFT_LEFT (S k) w
  = (Z.testbit w 31
     :: fst (PIO.shift_out_n PIO.SHIFT_LEFT k (Z.land (Z.shiftl w 1) 0xFFFFFFFF)),
     snd (PIO.shift_out_n PIO.SHIFT_LEFT k (Z.land (Z.shiftl w 1) 0xFFFFFFFF))).
Proof.
  cbn [PIO.shift_out_n PIO.shift_out].
  destruct (PIO.shift_out_n PIO.SHIFT_LEFT k _). reflexivity.
Qed.

Lemma testbit_shifted (w i : Z) :
  i < 32 ->
  Z.testbit (Z.land (Z.shiftl w 1) 0xFFFFFFFF) i = Z.testbit w (i - 1).
Proof.
  intros Hi. destruct (Z.neg_nonneg_cases i) as [Hneg | Hpos].
  - rewrite !Z.testbit_neg_r by lia. reflexivity.
  - change 0xFFFFFFFF with (Z.ones 32).
    rewrite Z.land_spec, Z.ones_spec_low, andb_true_r by lia.
    apply Z.shiftl_spec. lia.
Qed.

Lemma shift_out_n_bits (k : nat) :
  forall w : Z,
    fst (PIO.shift_out_n PIO.SHIFT_LEFT k w)
    = map (fun i => Z.testbit w (31 - Z.of_nat i)) (seq 0 k).
Proof.
  induction k as [| k IH]; intros w; [reflexivity |].
  rewrite shift_out_n_succ. cbn [fst seq map]. f_equal.
  rewrite IH, <- seq_shift, map_map.
  apply map_ext. intros i. rewrite testbit_shifted by lia. f_equal. lia.
Qed.

Lemma shift_out_n_rest (k : nat) :
  forall w : Z,
    snd (PIO.shift_out_n PIO.SHIFT_LEFT k w) = (w * 2 ^ Z.of_nat k) mod 2 ^ 32
    \/ (k = 0%nat /\ snd (PIO.shift_out_n PIO.SHIFT_LEFT k w) = w).
Proof.
  induction k as [| k IH]; intros w; [right; auto |]. left.
  rewrite shift_out_n_succ. cbn [snd].
  assert (Hshl : Z.land (Z.shiftl w 1) 0xFFFFFFFF = (w * 2) mod 2 ^ 32).
  { change 0xFFFFFFFF with (Z.ones 32).
    rewrite Z.land_ones, Z.shiftl_mul_pow2 by lia. reflexivity. }
  rewrite Hshl.
  destruct (IH ((w * 2) mod 2 ^ 32)) as [-> | [-> ->]].
  - rewrite Z.mul_mod_idemp_l by lia. f_equal.
    rewrite Nat2Z.inj_succ, Z.pow_succ_r by lia. lia.
  - change (2 ^ Z.of_nat 1) with 2. reflexivity.
Qed.

Lemma shift_out_n_add (j k : nat) :
  forall w : Z,
    fst (PIO.shift_out_n PIO.SHIFT_LEFT (j + k) w)
    = fst (PIO.shift_out_n PIO.SHIFT_LEFT j w)
      ++ fst (PIO.shift_out_n PIO.SHIFT_LEFT k
                (snd (PIO.shift_out_n PIO.SHIFT_LEFT j w)))
    /\ snd (PIO.shift_out_n PIO.SHIFT_LEFT (j + k) w)
       = snd (PIO.shift_out_n PIO.SHIFT_LEFT k
                (snd (PIO.shift_out_n PIO.SHIFT_LEFT j w))).
Proof.
  induction j as [| j IH]; intros w; [split; reflexivity |].
  change (S j + k)%nat with (S (j + k)). rewrite !shift_out_n_succ.
  cbn [fst snd app]. destruct (IH (Z.land (Z.shiftl w 1) 0xFFFFFFFF)) as [-> ->].
  split; reflexivity.
Qed.

(** One turn of a bit loop: four cycles with GPIO 1 high, high, low, low,
    from the [wait] at the head of the loop. *)
Lemma loop_turn (base : nat) (gp0 : bool) (s : PIO.state) :
  base = 2%nat \/ base = 8%nat ->
  PIO.pc s = base ->
  PIO.run cfg prog
          [Scenario.levels gp0 true; Scenario.levels gp0 true;
           Scenario.levels gp0 false; Scenario.levels gp0 false] s
  = {| PIO.pc := if PIO.x s =? 0
                 then (if Nat.eqb base 2 then 6 else 0)%nat else base;
       PIO.x := (PIO.x s - 1) mod 2 ^ 32;
       PIO.osr := Z.land (Z.shiftl (PIO.osr s) 1) 0xFFFFFFFF;
       PIO.tx_fifo := PIO.tx_fifo s;
       PIO.driven := PIO.driven s ++ [Z.testbit (PIO.osr s) 31] |}.
Proof.
  intros Hbase Hpc. destruct s as [pc x osr fifo driven]. cbn in Hpc. subst pc.
  destruct Hbase as [-> | ->]; reflexivity.
Qed.

(** A whole bit loop entered with [x = n]: [n + 1] turns. *)
Lemma bit_loop (base : nat) (gp0 : bool) (n : nat) :
  base = 2%nat \/ base = 8%nat ->
  forall s : PIO.state,
    PIO.pc s = base -> PIO.x s = Z.of_nat n -> Z.of_nat n < 2 ^ 32 ->
    PIO.run cfg prog
            (concat (repeat [Scenario.levels gp0 true; Scenario.levels gp0 true;
                             Scenario.levels gp0 false; Scenario.levels gp0 false]
                            (S n))) s
    = {| PIO.pc := (if Nat.eqb base 2 then 6 else 0)%nat;
         PIO.x := 2 ^ 32 - 1;
         PIO.osr := snd (PIO.shift_out_n PIO.SHIFT_LEFT (S n) (PIO.osr s));
         PIO.tx_fifo := PIO.tx_fifo s;
         PIO.driven := PIO.driven s
                       ++ fst (PIO.shift_out_n PIO.SHIFT_LEFT (S n) (PIO.osr s)) |}.
Proof.
  intros Hbase. induction n as [| n IH]; intros s Hpc Hx Hn.
  - change (concat (repeat ?p 1)) with p.
    rewrite (loop_turn base gp0 s Hbase Hpc), Hx. reflexivity.
  - change (repeat ?p (S (S n))) with (p :: repeat p (S n)).
    cbn [concat]. rewrite pio_run_app.
    rewrite (loop_turn base gp0 s Hbase Hpc), Hx.
    destruct (Z.eqb_spec (Z.of_nat (S n)) 0) as [| _]; [lia |].
    rewrite IH; cbn [PIO.pc PIO.x PIO.osr PIO.tx_fifo PIO.driven].
    + rewrite (shift_out_n_succ (S n)). cbn [fst snd].
      rewrite <- app_assoc. reflexivity.
    + reflexivity.
    + rewrite Z.mod_small by lia. lia.
    + lia.
Qed.

(** One pass through the program from its first instruction. *)
Lemma one_pass_from_start (s : PIO.state) :
  PIO.pc s = 0%nat ->
  PIO.run cfg prog Scenario.one_pass s
  = {| PIO.pc := 0;
       PIO.x := 2 ^ 32 - 1;
       PIO.osr := 0;
       PIO.tx_fifo := PIO.tx_fifo s;
       PIO.driven := PIO.driven s ++ Notions.msb_first (PIO.osr s) |}.
Proof.
  intros Hpc. destruct s as [pc x osr fifo driven]. cbn in Hpc. subst pc.
  unfold Scenario.one_pass, Scenario.sixteen_bits.
  rewrite pio_run_app.
  change (PIO.run cfg prog [Scenario.levels false false; Scenario.levels false false]
            {| PIO.pc := 0; PIO.x := x; PIO.osr := osr;
               PIO.tx_fifo := fifo; PIO.driven := driven |})
    with {| PIO.pc := 2; PIO.x := 15; PIO.osr := osr;
            PIO.tx_fifo := fifo; PIO.driven := driven |}.
  rewrite pio_run_app.
  rewrite (bit_loop 2 false 15) by (auto; reflexivity).
  cbn [PIO.pc PIO.x PIO.osr PIO.tx_fifo PIO.driven Nat.eqb].
  rewrite pio_run_app.
  match goal with
  | |- PIO.run _ _ _ (PIO.run _ _ _ ?st) = _ =>
      change (PIO.run cfg prog [Scenario.levels true false; Scenario.levels true false] st)
        with {| PIO.pc := 8; PIO.x := 15; PIO.osr := PIO.osr st;
                PIO.tx_fifo := PIO.tx_fifo st; PIO.driven := PIO.driven st |}
  end.
  rewrite (bit_loop 8 true 15) by (auto; reflexivity).
  cbn [PIO.pc PIO.x PIO.osr PIO.tx_fifo PIO.driven Nat.eqb].
  destruct (shift_out_n_add 16 16 osr) as [Hbits Hrest].
  rewrite <- app_assoc, <- Hbits, <- Hrest.
  change (16 + 16)%nat with 32%nat.
  rewrite shift_out_n_bits.
  destruct (shift_out_n_rest 32 osr) as [-> | [? _]]; [| discriminate].
  change (2 ^ Z.of_nat 32) with (2 ^ 32). rewrite Z.mod_mul by lia.
  reflexivity.
Qed.

Lemma msb_first_zero : Notions.msb_first 0 = repeat false 32.
Proof. reflexivity. Qed.

Lemma passes_from_start (n : nat) :
  forall s : PIO.state,
    PIO.pc s = 0%nat ->
    PIO.run cfg prog (Notions.passes (S n)) s
    = {| PIO.pc := 0;
         PIO.x := 2 ^ 32 - 1;
         PIO.osr := 0;
         PIO.tx_fifo := PIO.tx_fifo s;
         PIO.driven := PIO.driven s ++ Notions.msb_first (PIO.osr s)
                       ++ repeat false (32 * n) |}.
Proof.
  unfold Notions.passes. induction n as [| n IH]; intros s Hpc.
  - change (concat (repeat Scenario.one_pass 1)) with (Scenario.one_pass ++ []).
    change (repeat false (32 * 0)) with (@nil bool).
    rewrite !app_nil_r. apply one_pass_from_start. exact Hpc.
  - change (repeat ?p (S (S n))) with (p :: repeat p (S n)).
    cbn [concat]. rewrite pio_run_app, (one_pass_from_start s Hpc).
    rewrite IH by reflexivity.
    cbn [PIO.pc PIO.x PIO.osr PIO.tx_fifo PIO.driven].
    rewrite msb_first_zero, <- !app_assoc, <- repeat_app.
    do 4 f_equal. lia.
Qed.

(** While GPIO 1 stays low the machine does not get past the [wait] at
    the head of the left loop. *)
Lemma waits_for_gpio1 (trace : list (Z -> bool)) :
  Forall (fun gpio => gpio 1 = false) trace ->
  forall s : PIO.state,
    (PIO.pc s <= 2)%nat ->
    (PIO.pc (PIO.run cfg prog trace s) <= 2)%nat
    /\ PIO.driven (PIO.run cfg prog trace s) = PIO.driven s.
Proof.
  induction 1 as [| gpio trace Hg _ IH]; intros s Hpc; [auto |].
  unfold PIO.run in *. cbn [fold_left].
  assert (Hstep : (PIO.pc (PIO.step cfg prog gpio s) <= 2)%nat
                  /\ PIO.driven (PIO.step cfg prog gpio s) = PIO.driven s).
  { destruct s as [pc x osr fifo driven]. cbn [PIO.pc PIO.driven] in *.
    destruct pc as [| [| [| pc]]]; [| | | lia]; unfold PIO.step; cbn.
    - destruct (Bool.eqb (gpio 0) false); cbn; split; auto.
    - split; auto.
    - rewrite Hg. cbn. split; auto. }
  destruct Hstep as [Hpc' Hdriven'].
  destruct (IH (PIO.step cfg prog gpio s) Hpc') as [Hpc'' Hdriven''].
  split; [exact Hpc'' | congruence].
Qed.

End Passes.

(** X17: one pass through [i2s_slave_tx] as it is assembled, from its
    first instruction: with GPIO 0 low, then 16 pulses on GPIO 1, then
    GPIO 0 high and 16 more pulses, the 32 bits of the output shift
    register are driven most significant bit first, the register is left
    empty (zero), the TX fifo is as before and the program is back at its
    first instruction. *)
Theorem i2s_slave_tx_one_pass (osr0 : Z) (fifo : list Z) :
  PIO.run (Micro.sm_config Micro.BCK_PIN Micro.WS_PIN Micro.SD_PIN)
          Micro.i2s_slave_tx Scenario.one_pass (PIO.reset osr0 fifo)
  = {| PIO.pc := 0; PIO.x := 2 ^ 32 - 1; PIO.osr := 0;
       PIO.tx_fifo := fifo; PIO.driven := Notions.msb_first osr0 |}.
Proof. apply (one_pass_from_start (PIO.reset osr0 fifo)). reflexivity. Qed.

(** X18: since the program never pulls, only the first pass drives bits
    of a word: over [n + 1] passes the bits driven are the 32 bits the
    output shift register held at the start followed by [32 * n] zero
    bits, whatever words were handed to [sm.put], and those words are
    still in the TX fifo. *)
Theorem i2s_slave_tx_sends_zeros (n : nat) (osr0 : Z) (fifo : list Z) :
  let s := PIO.run (Micro.sm_config Micro.BCK_PIN Micro.WS_PIN Micro.SD_PIN)
                   Micro.i2s_slave_tx (Notions.passes (S n))
                   (PIO.reset osr0 fifo) in
  PIO.driven s = Notions.msb_first osr0 ++ repeat false (32 * n)
  /\ PIO.tx_fifo s = fifo
  /\ PIO.pc s = 0%nat.
Proof.
  cbv zeta. rewrite passes_from_start by reflexivity. auto.
Qed.

(** X19: no bit is driven before GPIO 1 is seen high: on every trace with
    GPIO 1 low throughout, the machine started from reset drives
    nothing. *)
Theorem i2s_slave_tx_waits_for_gpio1
        (trace : list (Z -> bool)) (osr0 : Z) (fifo : list Z) :
  Forall (fun gpio => gpio 1 = false) trace ->
  PIO.driven (PIO.run (Micro.sm_config Micro.BCK_PIN Micro.WS_PIN Micro.SD_PIN)
                      Micro.i2s_slave_tx trace (PIO.reset osr0 fifo)) = [].
Proof.
  intros Hlow.
  destruct (waits_for_gpio1 trace Hlow (PIO.reset osr0 fifo)) as [_ Hd];
    [cbn; lia | exact Hd].
Qed.

Lemma i2s_slave_tx_waits_for_gpio1_witness :
  PIO.driven (PIO.run (Micro.sm_config Micro.BCK_PIN Micro.WS_PIN Micro.SD_PIN)
                      Micro.i2s_slave_tx
                      (repeat (Scenario.levels false false) 8)
                      (PIO.reset 65538 [])) = [].
Proof.
  apply (i2s_slave_tx_waits_for_gpio1 (repeat (Scenario.levels false false) 8)).
  repeat constructor.
Defined.

(* ===================================================================== *)
(** * find_pico_port *)
(* ===================================================================== *)

Section FindPicoPort.

Import Ps.
Local Open Scope string_scope.

Lemma prefix_iff (needle hay : string) :
  String.prefix needle hay = true <-> exists post, hay = needle ++ post.
Proof.
  revert hay. induction needle as [| a needle IH]; intros hay.
  - split; [intros _; exists hay; reflexivity |].
    intros _. destruct hay; reflexivity.
  - destruct hay as [| c hay]; cbn.
    + split; [discriminate | intros [post Hpost]; discriminate].
    + destruct (Ascii.ascii_dec a c) as [-> | Hne].
      * rewrite IH. split; intros [post Hpost]; exists post; congruence.
      * split; [discriminate | intros [post Hpost]; congruence].
Qed.

Lemma str_in_iff (needle hay : string) :
  str_in needle hay = true <-> exists pre post, hay = pre ++ needle ++ post.
Proof.
  induction hay as [| c hay IH]; cbn [str_in]; rewrite orb_true_iff, prefix_iff.
  - split.
    + intros [[post Hpost] | Hfalse]; [exists "", post; exact Hpost | discriminate].
    + intros (pre & post & Hhay). left.
      destruct pre; [exists post; exact Hhay | discriminate].
  - rewrite IH. split.
    + intros [[post Hpost] | (pre & post & Hhay)].
      * exists "", post. exact Hpost.
      * exists (String c pre), post. cbn. congruence.
    + intros (pre & post & Hhay). destruct pre as [| a pre].
      * left. exists post. exact Hhay.
      * right. exists pre, post. cbn in Hhay. congruence.
Qed.

(** The tests of the loop body pass exactly for a port that qualifies. *)
Lemma port_tests (port : ListPortInfo) :
  (str_in "USB Serial" (description port) || str_in "Pico" (description port)
   || match vid port with Some v => (v =? 0x2E8A)%Z | None => false end) = true
  <-> Notions.qualifies port.
Proof.
  unfold Notions.qualifies. rewrite !orb_true_iff, !str_in_iff.
  assert (Hvid : match vid port with Some v => (v =? 0x2E8A)%Z | None => false end = true
                 <-> vid port = Some 0x2E8A%Z).
  { destruct (vid port) as [v |]; [| split; discriminate].
    rewrite Z.eqb_eq. split; congruence. }
  rewrite Hvid. tauto.
Qed.

Lemma find_pico_port_step (port : ListPortInfo) (ports : list ListPortInfo) :
  (Notions.qualifies port /\ find_pico_port (port :: ports) = Some (device port))
  \/ (~ Notions.qualifies port
      /\ find_pico_port (port :: ports) = find_pico_port ports).
Proof.
  pose proof (port_tests port) as Htests. cbn [find_pico_port].
  destruct (str_in "USB Serial" (description port) || str_in "Pico" (description port)).
  - left. split; [apply Htests |]; reflexivity.
  - cbn [orb] in Htests.
    destruct (match vid port with Some v => (v =? 0x2E8A)%Z | None => false end).
    + left. split; [apply Htests |]; reflexivity.
    + right. split; [| reflexivity]. intros Hq. apply Htests in Hq. discriminate.
Qed.

Lemma find_pico_port_none (ports : list ListPortInfo) :
  find_pico_port ports = None <-> Forall (fun port => ~ Notions.qualifies port) ports.
Proof.
  induction ports as [| port ports IH]; [split; [constructor | reflexivity] |].
  destruct (find_pico_port_step port ports) as [[Hq ->] | [Hq ->]].
  - split; [discriminate |]. intros Hall. inversion Hall. contradiction.
  - rewrite IH. split; [constructor; assumption |].
    intros Hall. inversion Hall. assumption.
Qed.

Lemma find_pico_port_some (ports : list ListPortInfo) (d : string) :
  find_pico_port ports = Some d
  <-> exists before port after,
      ports = (before ++ port :: after)%list
      /\ Forall (fun port => ~ Notions.qualifies port) before
      /\ Notions.qualifies port
      /\ device port = d.
Proof.
  induction ports as [| port ports IH].
  - split; [discriminate |]. intros (before & p & after & Heq & _).
    destruct before; discriminate.
  - destruct (find_pico_port_step port ports) as [[Hq ->] | [Hq ->]].
    + split.
      * intros [= <-]. exists []%list, port, ports. repeat split; auto.
      * intros (before & p & after & Heq & Hbefore & Hp & Hd).
        destruct before as [| q before].
        -- cbn in Heq. injection Heq as -> ->. congruence.
        -- cbn in Heq. injection Heq as -> ->. inversion Hbefore. contradiction.
    + rewrite IH. split.
      * intros (before & p & after & -> & Hbefore & Hp & Hd).
        exists (port :: before)%list, p, after. repeat split; auto.
      * intros (before & p & after & Heq & Hbefore & Hp & Hd).
        destruct before as [| q before].
        -- cbn in Heq. injection Heq as -> ->. contradiction.
        -- cbn in Heq. injection Heq as -> ->. inversion Hbefore; subst.
           exists before, p, after. repeat split; auto.
Qed.

End FindPicoPort.

(** X20: [find_pico_port] returns the device of the first port, in the
    order of [comports()], whose description contains "USB Serial" or
    "Pico" or whose vendor id is 0x2E8A; it returns [None] exactly when no
    port passes one of these tests. *)
Theorem find_pico_port_first (ports : list Ps.ListPortInfo) :
  (Ps.find_pico_port ports = None
   <-> Forall (fun port => ~ Notions.qualifies port) ports)
  /\ forall d,
      Ps.find_pico_port ports = Some d
      <-> exists before port after,
          ports = before ++ port :: after
          /\ Forall (fun port => ~ Notions.qualifies port) before
          /\ Notions.qualifies port
          /\ Ps.device port = d.
Proof.
  split; [apply find_pico_port_none | intros d; apply find_pico_port_some].
Qed.

(* ===================================================================== *)
(** * to_16bit: which bytes are kept *)
(* ===================================================================== *)

Section HighBytes.

Import Ps.

Lemma lor_shiftl_add (lo hi n : Z) :
  0 <= n -> 0 <= lo < 2 ^ n -> Z.lor lo (Z.shiftl hi n) = lo + hi * 2 ^ n.
Proof.
  intros Hn Hlo.
  assert (Hdisj : Z.land lo (Z.shiftl hi n) = 0).
  { rewrite <- (Z.mod_small lo (2 ^ n)) by lia.
    rewrite <- Z.land_ones by lia.
    apply Z.bits_inj'; intros i Hi.
    rewrite !Z.land_spec, Z.bits_0.
    destruct (Z.ltb_spec i n).
    - rewrite Z.shiftl_spec_low by lia. apply andb_false_r.
    - rewrite Z.ones_spec_high by lia. rewrite andb_false_r. reflexivity. }
  rewrite <- Z.lxor_lor, <- Z.add_nocarry_lxor by exact Hdisj.
  rewrite Z.shiftl_mul_pow2 by lia. reflexivity.
Qed.

Lemma le_combine_low_high (low high : bytes) :
  le_combine (low ++ high)
  = le_combine low + le_combine high * 2 ^ (8 * len low).
Proof.
  rewrite le_combine_app. pose proof (le_combine_bound low) as Hb.
  unfold len. replace (Z.of_nat (length low) * 8) with (8 * Z.of_nat (length low)) by lia.
  apply lor_shiftl_add; lia.
Qed.

(** Dividing a little-endian signed value by the weight of its low bytes
    and packing the result as 16 bits leaves its two high bytes. *)
Lemma high_bytes_kept (low high : bytes) (k : Z) :
  length high = 2%nat ->
  le_split 2 ((le_combine (low ++ high) - k * 2 ^ (8 * len (low ++ high)))
              / 2 ^ (8 * len low))
  = high.
Proof.
  intros Hhigh. rewrite le_combine_low_high, len_app.
  pose proof (le_combine_bound low) as Hlow.
  pose proof (le_combine_bound high) as Hhi. rewrite Hhigh in Hhi.
  pose proof (len_nonneg low) as Hnn. unfold len in *.
  set (D := 2 ^ (8 * Z.of_nat (length low))) in *.
  assert (HD : 0 < D) by (apply Z.pow_pos_nonneg; lia).
  replace (2 ^ (8 * (Z.of_nat (length low) + Z.of_nat (length high))))
    with (2 ^ 16 * D).
  2: { unfold D. rewrite Hhigh, <- Z.pow_add_r by lia. f_equal. lia. }
  replace (le_combine low + le_combine high * D - k * (2 ^ 16 * D))
    with (le_combine low + (le_combine high - k * 2 ^ 16) * D) by lia.
  rewrite Z.div_add, Z.div_small, Z.add_0_l by lia.
  rewrite le_split_mod. change (Z.of_nat 2 * 8) with 16.
  replace (le_combine high - k * 2 ^ 16) with (le_combine high + (- k) * 2 ^ 16) by lia.
  rewrite Z.mod_add, Z.mod_small by lia.
  apply split_le_combine'. exact Hhigh.
Qed.

Lemma from_24bit_bytes (group : bytes) :
  length group = 3%nat ->
  le_split 2 (from_24bit (int_from_bytes_signed group)) = skipn 1 group.
Proof.
  intros Hlen.
  destruct group as [| b0 [| b1 [| b2 [| ? ?]]]]; try discriminate.
  unfold from_24bit, int_from_bytes_signed. cbn [skipn].
  change (len [b0; b1; b2]) with 3. cbv zeta.
  destruct ((0 <? 3) && (2 ^ (8 * 3 - 1) <=? le_combine [b0; b1; b2])).
  - apply (high_bytes_kept [b0] [b1; b2] 1). reflexivity.
  - replace (le_combine [b0; b1; b2])
      with (le_combine ([b0] ++ [b1; b2]) - 0 * 2 ^ (8 * len ([b0] ++ [b1; b2])))
      by (cbn [app]; lia).
    apply (high_bytes_kept [b0] [b1; b2] 0). reflexivity.
Qed.

Lemma from_32bit_bytes (group : bytes) :
  length group = 4%nat ->
  le_split 2 (from_32bit (to_signed 32 (le_combine group))) = skipn 2 group.
Proof.
  intros Hlen.
  destruct group as [| b0 [| b1 [| b2 [| b3 [| ? ?]]]]]; try discriminate.
  unfold from_32bit, to_signed. cbn [skipn].
  destruct (le_combine [b0; b1; b2; b3] <? 2 ^ (32 - 1)).
  - replace (le_combine [b0; b1; b2; b3])
      with (le_combine ([b0; b1] ++ [b2; b3])
            - 0 * 2 ^ (8 * len ([b0; b1] ++ [b2; b3])))
      by (cbn [app]; lia).
    apply (high_bytes_kept [b0; b1] [b2; b3] 0). reflexivity.
  - apply (high_bytes_kept [b0; b1] [b2; b3] 1). reflexivity.
Qed.

Lemma len_concat_groups (m : nat) (groups : list bytes) :
  Forall (fun group => length group = m) groups ->
  len (concat groups) = Z.of_nat m * len groups.
Proof.
  induction 1 as [| g gs Hg _ IH]; [cbn; lia |].
  cbn [concat]. rewrite len_app, IH. unfold len. cbn [length]. lia.
Qed.

(** Cutting the concatenation of groups of [m] bytes at the multiples of
    [m] gives the groups back. *)
Lemma slices_of_groups (m : nat) (groups : list bytes) :
  Forall (fun group => length group = m) groups ->
  forall (pre : bytes) (k : nat),
    len pre = Z.of_nat m * Z.of_nat k ->
    map (fun i => slice (pre ++ concat groups) i (i + Z.of_nat m))
        (map (fun j => 0 + Z.of_nat m * Z.of_nat j) (seq k (length groups)))
    = groups.
Proof.
  induction 1 as [| g gs Hg _ IH]; intros pre k Hpre; [reflexivity |].
  cbn [length seq map concat]. f_equal.
  - rewrite Z.add_0_l, <- Hpre. apply slice_middle; [reflexivity |].
    unfold len. lia.
  - rewrite app_assoc. apply IH. rewrite len_app, Hpre. unfold len. lia.
Qed.

Lemma unpack_fields_groups (groups : list bytes) :
  Forall (fun group => length group = 4%nat) groups ->
  unpack_fields 4 true (length groups) (concat groups)
  = map (fun group => to_signed 32 (le_combine group)) groups.
Proof.
  induction 1 as [| g gs Hg _ IH]; [reflexivity |].
  cbn [length unpack_fields concat map].
  assert (Hfirst : firstn 4 (g ++ concat gs) = g).
  { rewrite firstn_app, Hg, firstn_all2 by lia. cbn [Nat.sub firstn].
    apply app_nil_r. }
  assert (Hskip : skipn 4 (g ++ concat gs) = concat gs).
  { rewrite skipn_app, Hg, skipn_all2 by lia. reflexivity. }
  rewrite Hfirst, Hskip, IH. reflexivity.
Qed.

Lemma pack_list_bytes (vs : list Z) (out : list bytes) :
  Forall2 (fun v x => Spec.int16 v /\ le_split 2 v = x) vs out ->
  pack_list 2 true vs = Ok (concat out).
Proof.
  induction 1 as [| v x vs out [Hv Hx] _ IH]; [reflexivity |].
  cbn [pack_list concat]. rewrite pack_h_ok, IH by exact Hv.
  cbn [bind]. rewrite Hx. reflexivity.
Qed.

End HighBytes.

(** X21: the 24-bit conversion drops the least significant byte of every
    sample: on frames made of 3-byte samples, the converted frames are
    the same samples with their two high bytes only. *)
Theorem to_16bit_24_keeps_high_bytes (groups : list bytes) :
  Forall (fun group => length group = 3%nat) groups ->
  Ps.to_16bit 3 (concat groups) = Ok (concat (map (skipn 1) groups)).
Proof.
  intros Hgroups. unfold Ps.to_16bit. cbn [Z.eqb Pos.eqb].
  assert (Hrange : range 0 (len (concat groups)) 3
                   = map (fun j => 0 + Z.of_nat 3 * Z.of_nat j)
                         (seq 0 (length groups))).
  { unfold range. rewrite (len_concat_groups 3 groups Hgroups).
    replace (Z.of_nat 3 * len groups - 0 + 3 - 1) with (2 + len groups * 3) by lia.
    rewrite Z.div_add by lia. change (2 / 3) with 0.
    unfold len. rewrite Z.add_0_l, Nat2Z.id. reflexivity. }
  assert (Hsamples :
            map (fun i => int_from_bytes_signed (slice (concat groups) i (i + 3)))
                (range 0 (len (concat groups)) 3)
            = map int_from_bytes_signed groups).
  { rewrite Hrange.
    rewrite <- (slices_of_groups 3 groups Hgroups [] 0 eq_refl) at 2.
    rewrite !map_map. reflexivity. }
  rewrite Hsamples, map_map.
  apply pack_list_bytes.
  clear Hrange Hsamples.
  induction Hgroups as [| g gs Hg _ IH]; cbn [map]; constructor; [| exact IH].
  split; [| apply from_24bit_bytes; exact Hg].
  pose proof (int_from_bytes_signed_range g ltac:(lia)) as Hr.
  pose proof (from_24bit_range _ Hr). unfold Spec.int16. lia.
Qed.

Lemma to_16bit_24_keeps_high_bytes_witness :
  Ps.to_16bit 3 (concat [[Byte.x11; Byte.x22; Byte.x33]; [Byte.xaa; Byte.xbb; Byte.xcc]])
  = Ok (concat (map (skipn 1)
                    [[Byte.x11; Byte.x22; Byte.x33]; [Byte.xaa; Byte.xbb; Byte.xcc]])).
Proof.
  apply (to_16bit_24_keeps_high_bytes
           [[Byte.x11; Byte.x22; Byte.x33]; [Byte.xaa; Byte.xbb; Byte.xcc]]).
  repeat constructor.
Defined.

(** X22: the 32-bit conversion drops the two least significant bytes of
    every sample: on frames made of 4-byte samples, the converted frames
    are the same samples with their two high bytes only. *)
Theorem to_16bit_32_keeps_high_bytes (groups : list bytes) :
  Forall (fun group => length group = 4%nat) groups ->
  Ps.to_16bit 4 (concat groups) = Ok (concat (map (skipn 2) groups)).
Proof.
  intros Hgroups. unfold Ps.to_16bit. cbn [Z.eqb Pos.eqb].
  pose proof (len_concat_groups 4 groups Hgroups) as Hlen.
  assert (Hdiv : len (concat groups) / 4 = len groups).
  { rewrite Hlen, Z.mul_comm. apply Z.div_mul. lia. }
  rewrite Hdiv, unpack_list_exact by (rewrite Hlen; lia).
  cbn [bind]. unfold len at 1. rewrite Nat2Z.id.
  rewrite unpack_fields_groups by exact Hgroups.
  rewrite map_map. apply pack_list_bytes. clear Hlen Hdiv.
  induction Hgroups as [| g gs Hg _ IH]; cbn [map]; constructor; [| exact IH].
  split; [| apply from_32bit_bytes; exact Hg].
  pose proof (le_combine_bound g) as Hb. rewrite Hg in Hb.
  pose proof (to_signed_range 32 (le_combine g) ltac:(lia) Hb) as Hr.
  pose proof (from_32bit_range _ Hr). unfold Spec.int16. lia.
Qed.

Lemma to_16bit_32_keeps_high_bytes_witness :
  Ps.to_16bit 4 (concat [[Byte.x11; Byte.x22; Byte.x33; Byte.x44]])
  = Ok (concat (map (skipn 2) [[Byte.x11; Byte.x22; Byte.x33; Byte.x44]])).
Proof.
  apply (to_16bit_32_keeps_high_bytes [[Byte.x11; Byte.x22; Byte.x33; Byte.x44]]).
  repeat constructor.
Defined.
